(** * Publishing scripts of the tldraw monorepo: a verification development

    Shallow embedding of [scripts/lib/publishing.ts]:
    - [retry], the bounded retry loop with a fixed delay;
    - [topologicalSortPackages], the depth-first ordering of the package
      registry;
    - [copyRecursiveSync], the recursive copy over a file system;
    - [publish], the per-package sequence of commands;
    - [getPackageDetails] and [getAllPackageDetails], the registry read off
      the [package.json] files of the [packages] directory;
    - [getLatestVersion], the greatest version of the registry.

    Promises are modelled by state passing: an asynchronous operation is a
    function from the state of the world to its settlement (resolved or
    rejected) and the next state of the world.  JavaScript numbers that
    count attempts or carry an HTTP status are integers ([Z]). *)

From Equations Require Import Equations.
From stdpp Require Import gmap strings list fin_maps.
From Stdlib Require Import ZArith Lia.

Open Scope Z_scope.

(** ** The retry engine (publishing.ts, [retry]) *)

(** The argument object [{ attempt, remaining, total }]. *)
Record RetryArgs := { attempt : Z; remaining : Z; total : Z }.

(** The options object [{ numAttempts, delay }]. *)
Record RetryOpts := { numAttempts : Z; delay : Z }.

(** How a promise settles. *)
Inductive Settled (E : Type) :=
| Resolved
| Rejected (err : E).
Arguments Resolved {E}.
Arguments Rejected {E} err.

Definition isRejected {E} (r : Settled E) : bool :=
  match r with Resolved => false | Rejected _ => true end.

(** What [retry] does, in order: a call of [fn] with the argument object it
    passed, or a [setTimeout] of the given number of milliseconds. *)
Inductive RetryEvent :=
| Invoked (a : RetryArgs)
| Waited (ms : Z).

Definition calls (tr : list RetryEvent) : list RetryArgs :=
  omap (fun ev => match ev with Invoked a => Some a | Waited _ => None end) tr.

Definition waits (tr : list RetryEvent) : list Z :=
  omap (fun ev => match ev with Invoked _ => None | Waited ms => Some ms end) tr.

(** The settlement of the promise returned by [retry], the state of the
    world when it settles, and what was done on the way. *)
Record RetryRun (S E : Type) := {
  settled : Settled E;
  final : S;
  events : list RetryEvent
}.
Arguments settled {S E} _.
Arguments final {S E} _.
Arguments events {S E} _.

Section Retry.
Context {S E : Type}.

(** [fn]: the operation, an asynchronous function of the argument object. *)
Variable fn : RetryArgs -> S -> Settled E * S.
Variable opts : RetryOpts.

(** The object built at line 297 when the counter [attempts] has the
    given value. *)
Definition argsAt (attempts : Z) : RetryArgs :=
  {| attempt := attempts;
     remaining := numAttempts opts - attempts;
     total := numAttempts opts |}.

(** The inner function [attempt()] (named [attemptLoop] here, [attempt]
    being a field of the argument object).  The local variable
    [attempts] is its first argument.  After a rejection the counter is
    incremented; the loop goes on only while the incremented counter is
    below [numAttempts], which bounds the recursion. *)
Equations? attemptLoop (attempts : Z) (s : S) : RetryRun S E
  by wf (Z.to_nat (numAttempts opts - attempts)) lt :=
  attemptLoop attempts s with fn (argsAt attempts) s => {
    | (Resolved, s1) :=
        {| settled := Resolved; final := s1;
           events := [Invoked (argsAt attempts)] |};
    | (Rejected err, s1) with Z_ge_dec (attempts + 1) (numAttempts opts) => {
      | left _ :=
          {| settled := Rejected err; final := s1;
             events := [Invoked (argsAt attempts)] |};
      | right _ :=
          let run := attemptLoop (attempts + 1) s1 in
          {| settled := settled run; final := final run;
             events := Invoked (argsAt attempts) :: Waited (delay opts)
                         :: events run |} } }.
Proof. lia. Qed.

Definition retry (s : S) : RetryRun S E := attemptLoop 0 s.

(** The settlement and the state after the [k]-th further call of [fn]
    (counting from 0) when calls are made one after the other whatever
    their results, starting with the counter at [attempts]. *)
Fixpoint callFrom (k : nat) (attempts : Z) (s : S) : Settled E * S :=
  match k with
  | O => fn (argsAt attempts) s
  | Datatypes.S k' => callFrom k' (attempts + 1) (fn (argsAt attempts) s).2
  end.

(** The [n]-th invocation of the operation, [n] counted from 1. *)
Definition invocation (n : nat) (s : S) : Settled E * S :=
  callFrom (Nat.pred n) 0 s.

(** The state in which that invocation is made. *)
Fixpoint stateFrom (k : nat) (attempts : Z) (s : S) : S :=
  match k with
  | O => s
  | Datatypes.S k' => stateFrom k' (attempts + 1) (fn (argsAt attempts) s).2
  end.

Definition stateBefore (n : nat) (s : S) : S := stateFrom (Nat.pred n) 0 s.

Definition invocations (run : RetryRun S E) : nat :=
  length (calls (events run)).

End Retry.

(** ** The topological sorter (publishing.ts, [topologicalSortPackages]) *)

(** The type [PackageDetails]. *)
Record PackageDetails := {
  name : string;
  dir : string;
  localDeps : list string;
  version : string
}.

(** A registry [Record<string, PackageDetails>] is given by its own
    properties, listed in the order in which [Object.keys] enumerates
    them.  Keys are package names: none is the name of a property
    inherited from [Object.prototype]. *)
Abbreviation Registry := (list (string * PackageDetails)).

(** [packages[packageName]]; [None] stands for [undefined]. *)
Fixpoint getPackage (packages : Registry) (packageName : string)
  : option PackageDetails :=
  match packages with
  | [] => None
  | (k, packageDetails) :: rest =>
      if decide (k = packageName) then Some packageDetails
      else getPackage rest packageName
  end.

(** [Object.keys(packages)]. *)
Definition keys (packages : Registry) : list string := packages.*1.

(** How a synchronous computation ends: it returns, it throws an [Error]
    with the given message, or the budget of nested calls given to the
    model is used up. *)
Inductive Completion (A : Type) :=
| Returned (a : A)
| Thrown (message : string)
| Exhausted.
Arguments Returned {A} a.
Arguments Thrown {A} message.
Arguments Exhausted {A}.

(** [list.forEach(f)] for a callback that acts on the state [St]; an
    exception thrown by the callback leaves the loop. *)
Fixpoint forEach {A St : Type} (f : A -> St -> Completion St)
  (l : list A) (st : St) : Completion St :=
  match l with
  | [] => Returned st
  | x :: rest =>
      match f x st with
      | Returned st' => forEach f rest st'
      | Thrown message => Thrown message
      | Exhausted => Exhausted
      end
  end.

(** The two local variables of [topologicalSortPackages] that [visit]
    updates. *)
Record SortState := {
  sorted : list PackageDetails;
  visited : gset string
}.

(** [path.join(' -> ')] and the message of the error of line 117. *)
Definition joinPath (path : list string) : string :=
  String.concat " -> " path.

Definition missingPackageMessage (packageName : string) (path : list string)
  : string :=
  "Could not find package " +:+ packageName +:+ ". path: " +:+ joinPath path.

(** The inner function [visit]; [fuel] bounds the depth of the nested
    calls. *)
Fixpoint visit (packages : Registry) (fuel : nat) (packageName : string)
  (path : list string) (st : SortState) : Completion SortState :=
  match fuel with
  | O => Exhausted
  | Datatypes.S fuel' =>
      if decide (packageName ∈ visited st) then Returned st
      else
        let st1 := {| sorted := sorted st;
                      visited := {[packageName]} ∪ visited st |} in
        match getPackage packages packageName with
        | None => Thrown (missingPackageMessage packageName path)
        | Some packageDetails =>
            match forEach
                    (fun dep => visit packages fuel' dep (path ++ [dep]))
                    (localDeps packageDetails) st1 with
            | Returned st2 =>
                Returned {| sorted := sorted st2 ++ [packageDetails];
                            visited := visited st2 |}
            | Thrown message => Thrown message
            | Exhausted => Exhausted
            end
        end
  end.

(** A call of [visit] that gets past the check of [visited] marks a key
    that was not marked before, so the calls are never nested deeper than
    the number of keys, plus one for a call on a name that is no key. *)
Definition visitFuel (packages : Registry) : nat :=
  Datatypes.S (length packages).

Definition topologicalSortPackages (packages : Registry)
  : Completion (list PackageDetails) :=
  match forEach
          (fun packageName =>
             visit packages (visitFuel packages) packageName [packageName])
          (keys packages) {| sorted := []; visited := ∅ |} with
  | Returned st => Returned (sorted st)
  | Thrown message => Thrown message
  | Exhausted => Exhausted
  end.

(** *** Vocabulary of the statements about the sorter *)

Section SorterVocabulary.
Variable packages : Registry.

(** [edge k d]: the package under key [k] lists [d] in its [localDeps]. *)
Definition edge (k d : string) : Prop :=
  ∃ packageDetails,
    getPackage packages k = Some packageDetails ∧ d ∈ localDeps packageDetails.

(** Every name in a [localDeps] is a key of the registry. *)
Definition depsResolve : Prop :=
  ∀ k d, edge k d → is_Some (getPackage packages d).

(** No package is among its own direct or transitive [localDeps]. *)
Definition acyclic : Prop := ∀ k, ¬ tc edge k k.

(** A dependency chain: each name is in the [localDeps] of the one before. *)
Fixpoint chain (l : list string) : Prop :=
  match l with
  | a :: rest => match rest with b :: _ => edge a b | [] => True end ∧ chain rest
  | [] => True
  end.

End SorterVocabulary.

(** [before x y l]: [x] stands in [l] at an index strictly smaller than an
    index of [y]. *)
Definition before {A : Type} (x y : A) (l : list A) : Prop :=
  ∃ i j : nat, (i < j)%nat ∧ l !! i = Some x ∧ l !! j = Some y.

(** ** The recursive copy (publishing.ts, [copyRecursiveSync]) *)

(** A path is the list of its components ([path.join(src, childItemName)]
    adds one component at the end); the empty path is the root.  A file
    system maps the paths that exist to a directory or to a regular file
    with its bytes. *)
Inductive Entry :=
| FileEntry (content : list Byte.byte)
| DirEntry.

Abbreviation Path := (list string).
Abbreviation FileSystem := (gmap (list string) Entry).

(** [exists && stats && stats.isDirectory()] of lines 12 to 14. *)
Definition isDirectoryAt (p : Path) (fs : FileSystem) : bool :=
  match fs !! p with
  | Some DirEntry => true
  | _ => false
  end.

(** [fs.mkdirSync(dest, { recursive: true })]: every missing directory on
    the way to [dest], and [dest] itself, is created; a regular file on the
    way is an error.  [done] is the part of the path already walked. *)
Fixpoint mkdirFrom (done todo : Path) (fs : FileSystem)
  : Completion FileSystem :=
  match todo with
  | [] => Returned fs
  | n :: rest =>
      let p := done ++ [n] in
      match fs !! p with
      | Some (FileEntry _) =>
          Thrown (match rest with [] => "EEXIST" | _ => "ENOTDIR" end)
      | Some DirEntry => mkdirFrom p rest fs
      | None => mkdirFrom p rest (<[p := DirEntry]> fs)
      end
  end.

Definition mkdirSync (dest : Path) (fs : FileSystem) : Completion FileSystem :=
  mkdirFrom [] dest fs.

(** [stripPrefix pre p]: what is left of [p] after [pre]. *)
Fixpoint stripPrefix (pre p : Path) : option Path :=
  match pre, p with
  | [], _ => Some p
  | a :: pre', b :: p' => if decide (a = b) then stripPrefix pre' p' else None
  | _ :: _, [] => None
  end.

Definition childName (d p : Path) : option string :=
  match stripPrefix d p with
  | Some [n] => Some n
  | _ => None
  end.

(** [fs.readdirSync(src)] for a directory [src]: the names of its
    entries. *)
Definition readdirSync (src : Path) (fs : FileSystem) : list string :=
  omap (childName src) (map_to_list fs).*1.

(** The directory that holds [p]. *)
Definition parent (p : Path) : Path := take (Nat.pred (length p)) p.

(** [fs.copyFileSync(src, dest)]: the bytes of the regular file [src]
    become the content of [dest], which is created or overwritten; the
    directory that holds [dest] must exist. *)
Definition copyFileSync (src dest : Path) (fs : FileSystem)
  : Completion FileSystem :=
  match fs !! src with
  | None => Thrown "ENOENT"
  | Some DirEntry => Thrown "EISDIR"
  | Some (FileEntry content) =>
      match fs !! dest with
      | Some DirEntry => Thrown "EISDIR"
      | _ =>
          match fs !! parent dest with
          | Some DirEntry => Returned (<[dest := FileEntry content]> fs)
          | Some (FileEntry _) => Thrown "ENOTDIR"
          | None => Thrown "ENOENT"
          end
      end
  end.

(** [copyRecursiveSync]; [fuel] bounds the depth of the nested calls.  The
    directory is listed after the destination has been created. *)
Fixpoint copyRecursive (fuel : nat) (src dest : Path) (fs : FileSystem)
  : Completion FileSystem :=
  match fuel with
  | O => Exhausted
  | Datatypes.S fuel' =>
      if isDirectoryAt src fs then
        match mkdirSync dest fs with
        | Returned fs1 =>
            forEach
              (fun childItemName =>
                 copyRecursive fuel' (src ++ [childItemName])
                   (dest ++ [childItemName]))
              (readdirSync src fs1) fs1
        | Thrown message => Thrown message
        | Exhausted => Exhausted
        end
      else copyFileSync src dest fs
  end.

(** The longest path of the file system bounds the depth of any tree in
    it. *)
Definition depth (fs : FileSystem) : nat :=
  max_list (length <$> (map_to_list fs).*1).

Definition copyRecursiveSync (src dest : Path) (fs : FileSystem)
  : Completion FileSystem :=
  copyRecursive (Datatypes.S (depth fs)) src dest fs.

(** *** Vocabulary of the statements about the copy *)

(** [src] is a tree of nested directories and files: it exists, and every
    entry below it lies in a directory. *)
Definition isTree (src : Path) (fs : FileSystem) : Prop :=
  is_Some (fs !! src) ∧
  ∀ r n, is_Some (fs !! (src ++ r ++ [n])) → fs !! (src ++ r) = Some DirEntry.

(** Neither path lies at or below the other. *)
Definition apart (src dest : Path) : Prop :=
  ¬ src `prefix_of` dest ∧ ¬ dest `prefix_of` src.

(** Where the copy needs a directory there is no regular file, and where
    it writes a file there is no directory. *)
Definition sameKind (e1 e2 : Entry) : bool :=
  match e1, e2 with
  | DirEntry, DirEntry => true
  | FileEntry _, FileEntry _ => true
  | _, _ => false
  end.

Definition noClash (src dest : Path) (fs : FileSystem) : Prop :=
  ∀ r e1 e2,
    fs !! (src ++ r) = Some e1 → fs !! (dest ++ r) = Some e2 →
    sameKind e1 e2 = true.

(** The destination can be reached: the directory that holds it exists,
    or, the source being a directory, no regular file lies on the way. *)
Definition reachable (src dest : Path) (fs : FileSystem) : Prop :=
  if isDirectoryAt src fs
  then ∀ q e, q `prefix_of` dest → q ≠ [] → fs !! q = Some e → e = DirEntry
  else fs !! parent dest = Some DirEntry.

(** The result of a copy: below [dest] the entries of the source tree, at
    the same relative paths, then whatever [dest] held elsewhere; outside
    [dest] nothing changes but for the directories created on the way. *)
Definition copied (src dest : Path) (fs fs' : FileSystem) : Prop :=
  (∀ r, fs' !! (dest ++ r)
        = match fs !! (src ++ r) with
          | Some e => Some e
          | None => fs !! (dest ++ r)
          end) ∧
  (∀ q, ¬ dest `prefix_of` q →
        fs' !! q = fs !! q ∨
        (q `prefix_of` dest ∧ q ≠ [] ∧ fs !! q = None ∧
         fs' !! q = Some DirEntry)).

(** ** The publish sequencer (publishing.ts, [publish], lines 142 to 284) *)

(** [s.includes(pat)]. *)
Fixpoint includes (pat s : string) : bool :=
  String.prefix pat s
  || match s with
     | EmptyString => false
     | String _ s' => includes pat s'
     end.

Fixpoint dropString (n : nat) (s : string) : string :=
  match n, s with
  | O, _ => s
  | Datatypes.S n', String _ s' => dropString n' s'
  | Datatypes.S _, EmptyString => EmptyString
  end.

(** [s.replace(pat, rep)] for a string pattern: the first occurrence only. *)
Fixpoint replaceFirst (pat rep s : string) : string :=
  if String.prefix pat s then rep +:+ dropString (String.length pat) s
  else match s with
       | EmptyString => EmptyString
       | String c s' => String c (replaceFirst pat rep s')
       end.

(** A call [exec(program, arguments, { pwd })]. *)
Record Command := {
  program : string;
  arguments : list string;
  pwd : option string
}.

(** What a call of [exec] did: the lines it passed to [processStdoutLine]
    and [processStderrLine], in the order of the calls, and the error it
    rejected with, if it did. *)
Record ExecResult (Err : Type) := {
  failure : option Err;
  lines : list string
}.
Arguments failure {Err} _.
Arguments lines {Err} _.

(** The errors of a run: a rejection of [exec] or [fetch], the error
    [Package not found: <status>] of line 202, and an exception of the file
    system. *)
Inductive Failure (Err : Type) :=
| External (e : Err)
| PackageNotFound (status : Z)
| FsFailure (message : string).
Arguments External {Err} e.
Arguments PackageNotFound {Err} status.
Arguments FsFailure {Err} message.

(** The state of a run: the world, and the commands given to [exec] so
    far, in order. *)
Record RunState (World : Type) := {
  world : World;
  ran : list Command
}.
Arguments world {World} _.
Arguments ran {World} _.

Definition alreadyPublished : string :=
  "You cannot publish over the previously published versions".

Definition publishOpts : RetryOpts := {| numAttempts := 5; delay := 10000 |}.
Definition availabilityOpts : RetryOpts := {| numAttempts := 10; delay := 3000 |}.

Section Publish.
Context {World Err : Type}.

(** The collaborators that are not in this file: [exec] of [./exec],
    [fetch] with method [HEAD] (its rejection or the status of its
    response), the prerelease tag that [semver] reads off a version
    ([parse(version)?.prerelease[0] ?? 'latest'], as a string), and the
    file system of the world, seen from the working directory. *)
Variable exec : Command -> World -> ExecResult Err * World.
Variable fetchHead : string -> World -> (Err + Z) * World.
Variable prereleaseTag : string -> string.
Variable fileSystem : World -> FileSystem.
Variable withFileSystem : FileSystem -> World -> World.

(** An awaited step: it settles and leaves a state. *)
Definition Step : Type :=
  RunState World -> Settled (Failure Err) * RunState World.

(** [await a; b]. *)
Definition andThen (a b : Step) : Step :=
  fun st =>
    match a st with
    | (Resolved, st') => b st'
    | (Rejected e, st') => (Rejected e, st')
    end.

(** [try { await a } catch { // ignore }]. *)
Definition ignoringFailure (a : Step) : Step :=
  fun st => (Resolved, (a st).2).

Definition sequence (steps : list Step) : Step :=
  foldr andThen (fun st => (Resolved, st)) steps.

(** The text gathered in [output] by the two line callbacks. *)
Definition newline : string := String (Ascii.ascii_of_nat 10) EmptyString.

Definition gathered (ls : list string) : string :=
  foldr (fun line acc => line +:+ newline +:+ acc) EmptyString ls.

(** [await exec(...)] without callbacks. *)
Definition execStep (c : Command) : Step :=
  fun st =>
    let (r, w) := exec c (world st) in
    let st' := {| world := w; ran := ran st ++ [c] |} in
    match failure r with
    | Some e => (Rejected (External e), st')
    | None => (Resolved, st')
    end.

Definition command (prog : string) (args : list string) : Command :=
  {| program := prog; arguments := args; pwd := None |}.

Definition commandIn (dir : string) (prog : string) (args : list string)
  : Command :=
  {| program := prog; arguments := args; pwd := Some dir |}.

Definition unscopedName (packageDetails : PackageDetails) : string :=
  replaceFirst "@tldraw/" "" (name packageDetails).

Definition tarballUrl (packageDetails : PackageDetails) : string :=
  "http://127.0.0.1:4873/@tldraw/" +:+ unscopedName packageDetails +:+ "/-/"
  +:+ unscopedName packageDetails +:+ "-" +:+ version packageDetails
  +:+ ".tgz".

Definition tarballName (packageDetails : PackageDetails) : string :=
  unscopedName packageDetails +:+ "-" +:+ version packageDetails +:+ ".tgz".

Definition branchName (packageDetails : PackageDetails) : string :=
  unscopedName packageDetails +:+ "-" +:+ version packageDetails.

Definition yarnPublish (packageDetails : PackageDetails) : Command :=
  commandIn (dir packageDetails) "yarn"
    ["npm"; "publish"; "--tag"; prereleaseTag (version packageDetails);
     "--tolerate-republish"; "--access"; "public"].

(** The operation of lines 149 to 182. *)
Definition publishOperation (packageDetails : PackageDetails)
  (_ : RetryArgs) : Step :=
  fun st =>
    let (r, w) := exec (yarnPublish packageDetails) (world st) in
    let output := gathered (lines r) in
    let st' := {| world := w; ran := ran st ++ [yarnPublish packageDetails] |} in
    match failure r with
    | None => (Resolved, st')
    | Some e =>
        if includes alreadyPublished output then (Resolved, st')
        else (Rejected (External e), st')
    end.

(** The operation of lines 190 to 204. *)
Definition availabilityOperation (packageDetails : PackageDetails)
  (_ : RetryArgs) : Step :=
  fun st =>
    let (res, w) := fetchHead (tarballUrl packageDetails) (world st) in
    let st' := {| world := w; ran := ran st |} in
    match res with
    | inl e => (Rejected (External e), st')
    | inr status =>
        if status >=? 400 then (Rejected (PackageNotFound status), st')
        else (Resolved, st')
    end.

(** [await retry(fn, opts)]. *)
Definition retryStep (fn : RetryArgs -> Step) (opts : RetryOpts) : Step :=
  fun st => let run := retry fn opts st in (settled run, final run).

(** [copyRecursiveSync('./package/', `./tldraw-assets`)]; unbounded
    recursion ends in an exception too. *)
Definition copyStep : Step :=
  fun st =>
    match copyRecursiveSync ["package"] ["tldraw-assets"]
            (fileSystem (world st)) with
    | Returned fs' =>
        (Resolved, {| world := withFileSystem fs' (world st); ran := ran st |})
    | Thrown message => (Rejected (FsFailure message), st)
    | Exhausted => (Rejected (FsFailure "RangeError"), st)
    end.

Definition removeAssets : Command := command "rm" ["-rf"; "tldraw-assets"].
Definition removePackage : Command := command "rm" ["-rf"; "./package"].
Definition removeTarball (packageDetails : PackageDetails) : Command :=
  command "rm" ["-rf"; tarballName packageDetails].

(** Lines 216 to 249: stale copies are removed, the tarball is fetched and
    unpacked, its content is copied into the clone. *)
Definition transplant (packageDetails : PackageDetails) : list Step :=
  [ ignoringFailure (execStep removeAssets);
    ignoringFailure (execStep removePackage);
    execStep (command "curl" ["-O"; tarballUrl packageDetails]);
    execStep (command "git"
                ["clone"; "https://github.com/superwall-me/tldraw-assets.git"]);
    execStep (command "tar"
                ["-xzf"; tarballName packageDetails; "-C"; "./"]);
    copyStep ].

(** Lines 252 to 261: branch, stage, commit, push. *)
Definition downstream (packageDetails : PackageDetails) : list Command :=
  [ commandIn "./tldraw-assets" "git"
      ["checkout"; "-b"; branchName packageDetails];
    commandIn "./tldraw-assets" "git" ["add"; "."];
    commandIn "./tldraw-assets" "git"
      ["commit"; "-m";
       "Publish " +:+ unscopedName packageDetails +:+ "@"
       +:+ version packageDetails];
    commandIn "./tldraw-assets" "git"
      ["push"; "-f"; "-u"; "origin"; branchName packageDetails] ].

(** Lines 264 to 282. *)
Definition cleanup (packageDetails : PackageDetails) : list Command :=
  [ removeTarball packageDetails; removeAssets; removePackage ].

(** The body of the loop of line 142 for one package. *)
Definition publishPackage (packageDetails : PackageDetails) : Step :=
  sequence
    ([ retryStep (publishOperation packageDetails) publishOpts;
       retryStep (availabilityOperation packageDetails) availabilityOpts ]
     ++ transplant packageDetails
     ++ (execStep <$> downstream packageDetails)
     ++ ((fun c => ignoringFailure (execStep c)) <$> cleanup packageDetails)).

(** [for (const packageDetails of publishOrder) { ... }]. *)
Definition publishLoop (publishOrder : list PackageDetails) : Step :=
  sequence (publishPackage <$> publishOrder).

End Publish.

(** ** Definitions used in the proofs *)

(** *** The retry loop *)

(** What a run of the loop started with the counter at [a] looks like:
    [m] rejected calls, each followed by a wait, then a last call. *)
Record loopShape {S E : Type} (fn : RetryArgs -> S -> Settled E * S)
  (opts : RetryOpts) (a : Z) (s : S) (run : RetryRun S E) (m : nat) : Prop := {
  shape_calls :
    calls (events run)
    = (fun k : nat => argsAt opts (a + Z.of_nat k)) <$> seq 0 (Datatypes.S m);
  shape_waits : waits (events run) = replicate m (delay opts);
  shape_rejected :
    ∀ k, (k < m)%nat → isRejected (callFrom fn opts k a s).1 = true;
  shape_last : (settled run, final run) = callFrom fn opts m a s;
  shape_continued : m ≠ 0%nat → a + Z.of_nat m < numAttempts opts;
  shape_exhausted :
    isRejected (settled run) = true → a + Z.of_nat m + 1 >= numAttempts opts
}.

(** *** The sorter *)

Section SorterInvariant.
Variable packages : Registry.

(** [ks] are the keys under which the packages of [l] are registered. *)
Definition detailsOf (ks : list string) (l : list PackageDetails) : Prop :=
  Forall2 (fun k pd => getPackage packages k = Some pd) ks l.

Definition keySet : gset string := list_to_set (keys packages).

(** The invariant of the traversal; [ks] are the keys of the packages
    pushed so far.  A dependency of a pushed package was pushed before it,
    unless it was being visited at the time, and then it depends on the
    package. *)
Record sortInv (ks : list string) (st : SortState) : Prop := {
  inv_details : detailsOf ks (sorted st);
  inv_nodup : NoDup ks;
  inv_marked : ∀ k, k ∈ ks → k ∈ visited st;
  inv_order : ∀ k d, k ∈ ks → edge packages k d →
                     before d k ks ∨ tc (edge packages) d k
}.

(** What a call [visit(p, path)] made in state [st] leaves. *)
Definition visitPost (p : string) (path : list string) (ks : list string)
  (st : SortState) (r : Completion SortState) : Prop :=
  match r with
  | Exhausted => False
  | Returned st' =>
      ∃ new, sortInv (ks ++ new) st' ∧
             visited st' = visited st ∪ list_to_set new ∧
             (∀ k, k ∈ new → k ∉ visited st) ∧
             p ∈ visited st'
  | Thrown m =>
      ∃ tail missing,
        last (p :: tail) = Some missing ∧
        m = missingPackageMessage missing (path ++ tail) ∧
        getPackage packages missing = None ∧
        chain packages (p :: tail)
  end.

(** What a loop of calls of [visit] over [l] leaves; [mk d] is the path
    given to the call on [d]. *)
Definition eachPost (mk : string → list string) (l : list string)
  (ks : list string) (st : SortState) (r : Completion SortState) : Prop :=
  match r with
  | Exhausted => False
  | Returned st' =>
      ∃ new, sortInv (ks ++ new) st' ∧
             visited st' = visited st ∪ list_to_set new ∧
             (∀ k, k ∈ new → k ∉ visited st) ∧
             (∀ d, d ∈ l → d ∈ visited st')
  | Thrown m =>
      ∃ d tail missing,
        d ∈ l ∧
        last (d :: tail) = Some missing ∧
        m = missingPackageMessage missing (mk d ++ tail) ∧
        getPackage packages missing = None ∧
        chain packages (d :: tail)
  end.

(** The names marked and not yet pushed are those of the calls in
    progress; each of them depends on the package visited. *)
Definition visitSpec (fuel : nat) : Prop :=
  ∀ p path st ks,
    sortInv ks st →
    (∀ q, q ∈ visited st → q ∉ ks → tc (edge packages) q p) →
    (size (keySet ∖ visited st) < fuel)%nat →
    visitPost p path ks st (visit packages fuel p path st).

End SorterInvariant.

Definition initialState : SortState := {| sorted := []; visited := ∅ |}.

(** Decision procedures for the hypotheses on a registry. *)
Definition depsResolveb (packages : Registry) : bool :=
  forallb
    (fun entry : string * PackageDetails =>
       forallb (fun d => bool_decide (is_Some (getPackage packages d)))
         (localDeps entry.2))
    packages.

(** [rank] decreases along every dependency. *)
Definition rankedb (rank : string → nat) (packages : Registry) : bool :=
  forallb
    (fun entry : string * PackageDetails =>
       forallb (fun d => (rank d <? rank entry.1)%nat) (localDeps entry.2))
    packages.

(** *** The copy *)

(** The paths that [mkdirFrom done todo] walks through. *)
Definition onTheWay (done todo q : Path) : Prop :=
  ∃ k, k ≠ [] ∧ k `prefix_of` todo ∧ q = done ++ k.

(** Every entry below [src] lies in a directory. *)
Definition nested (src : Path) (fs : FileSystem) : Prop :=
  ∀ r n, is_Some (fs !! (src ++ r ++ [n])) → fs !! (src ++ r) = Some DirEntry.

Definition copySpec (fuel : nat) : Prop :=
  ∀ (src dest : Path) (fs : FileSystem),
    apart src dest → is_Some (fs !! src) → nested src fs →
    (∀ r, is_Some (fs !! (src ++ r)) → (length r < fuel)%nat) →
    noClash src dest fs → reachable src dest fs →
    ∃ fs', copyRecursive fuel src dest fs = Returned fs' ∧
           copied src dest fs fs'.

(** The state of the loop over the entries of a directory, once the
    entries [done] have been copied; [fs1] is the file system the loop
    started in. *)
Definition childrenCopied (src dest : Path) (fs1 : FileSystem)
  (done : list string) (f : FileSystem) : Prop :=
  (∀ n r, n ∈ done →
          f !! (dest ++ n :: r)
          = match fs1 !! (src ++ n :: r) with
            | Some e => Some e
            | None => fs1 !! (dest ++ n :: r)
            end) ∧
  (∀ q, (∀ n r, n ∈ done → q ≠ dest ++ n :: r) → f !! q = fs1 !! q).

(** Decision procedures for the hypotheses on a file system. *)
Definition isTreeb (src : Path) (fs : FileSystem) : bool :=
  bool_decide (is_Some (fs !! src))
  && forallb
       (fun p => match stripPrefix src p with
                 | Some (_ :: _) => isDirectoryAt (parent p) fs
                 | _ => true
                 end)
       (map_to_list fs).*1.

Definition noClashb (src dest : Path) (fs : FileSystem) : bool :=
  forallb
    (fun entry : Path * Entry =>
       match stripPrefix src entry.1 with
       | Some r =>
           match fs !! (dest ++ r) with
           | Some e2 => sameKind entry.2 e2
           | None => true
           end
       | None => true
       end)
    (map_to_list fs).

Definition reachableb (src dest : Path) (fs : FileSystem) : bool :=
  if isDirectoryAt src fs
  then forallb
         (fun k => match fs !! take k dest with
                   | Some (FileEntry _) => false
                   | _ => true
                   end)
         (seq 1 (length dest))
  else isDirectoryAt (parent dest) fs.

(** *** The sequencer *)

Section PublishPrefix.
Context {World Err : Type}.
Variable exec : Command -> World -> ExecResult Err * World.
Variable fetchHead : string -> World -> (Err + Z) * World.
Variable prereleaseTag : string -> string.
Variable fileSystem : World -> FileSystem.
Variable withFileSystem : FileSystem -> World -> World.

(** The steps of a package that come before the commands of lines 252 to
    261. *)
Definition beforeDownstream (packageDetails : PackageDetails)
  : list (@Step World Err) :=
  [ retryStep (publishOperation exec prereleaseTag packageDetails) publishOpts;
    retryStep (availabilityOperation fetchHead packageDetails)
      availabilityOpts ]
  ++ transplant exec fileSystem withFileSystem packageDetails.

End PublishPrefix.

(** ** Sample inputs *)

(** An operation that is rejected until the state, the number of calls made
    so far, reaches [ready]; the error is that number. *)
Definition flaky (ready : nat) (_ : RetryArgs) (made : nat)
  : Settled nat * nat :=
  if (ready <=? made)%nat then (Resolved, Datatypes.S made)
  else (Rejected made, Datatypes.S made).

(** An operation that is always rejected. *)
Definition hopeless (_ : RetryArgs) (made : nat) : Settled nat * nat :=
  (Rejected made, Datatypes.S made).

Definition package (n : string) (deps : list string) : PackageDetails :=
  {| name := n; dir := "packages/" +:+ n; localDeps := deps;
     version := "2.0.0-canary.1" |}.

(** [tldraw] depends on [editor], which depends on [utils]. *)
Definition chainRegistry : Registry :=
  [ ("@tldraw/tldraw", package "@tldraw/tldraw" ["@tldraw/editor"]);
    ("@tldraw/editor", package "@tldraw/editor" ["@tldraw/utils"]);
    ("@tldraw/utils", package "@tldraw/utils" []) ].

Definition chainRank (n : string) : nat :=
  if decide (n = "@tldraw/tldraw") then 2%nat
  else if decide (n = "@tldraw/editor") then 1%nat
  else 0%nat.

(** [editor] depends on a package that is not in the registry. *)
Definition danglingRegistry : Registry :=
  [ ("@tldraw/tldraw", package "@tldraw/tldraw" ["@tldraw/editor"]);
    ("@tldraw/editor", package "@tldraw/editor" ["@tldraw/store"]) ].

(** [editor] and [state] depend on each other. *)
Definition cyclicRegistry : Registry :=
  [ ("@tldraw/tldraw", package "@tldraw/tldraw" ["@tldraw/editor"]);
    ("@tldraw/editor", package "@tldraw/editor" ["@tldraw/state"]);
    ("@tldraw/state", package "@tldraw/state" ["@tldraw/editor"]) ].

(** A source tree [package] with a file and a directory, and a destination
    [assets] that holds a file of its own and an older [index.js]. *)
Definition sampleFs : FileSystem :=
  list_to_map
    [ ([], DirEntry);
      (["package"], DirEntry);
      (["package"; "index.js"], FileEntry [Byte.x61; Byte.x62]);
      (["package"; "dist"], DirEntry);
      (["package"; "dist"; "index.mjs"], FileEntry [Byte.x63]);
      (["assets"], DirEntry);
      (["assets"; "README.md"], FileEntry [Byte.x64]);
      (["assets"; "index.js"], FileEntry [Byte.x00]) ].

(** The same source tree, and a regular file where the copy is to go. *)
Definition clashFs : FileSystem :=
  list_to_map
    [ ([], DirEntry);
      (["package"], DirEntry);
      (["package"; "index.js"], FileEntry [Byte.x61; Byte.x62]);
      (["assets"], FileEntry [Byte.x64]) ].

(** A simulated world: a file system and the number of [HEAD] requests
    made.  [curl] writes the tarball, [git clone] creates the clone, [tar]
    unpacks a package and [rm -rf] removes a tree; the registry answers 404
    to the first [availableAfter] requests and 200 afterwards;
    [yarn npm publish] fails with the duplicate-version message when
    [republished] is set, and [git push] fails when [pushFails] is. *)
Record SimWorld := {
  simFs : FileSystem;
  polls : nat
}.

Record Scenario := {
  republished : bool;
  availableAfter : nat;
  pushFails : bool
}.

Definition simPackage : PackageDetails := package "@tldraw/utils" [].

Definition simTarball : string := "utils-2.0.0-canary.1.tgz".

(** The name that [rm -rf] is given, without a leading [./]. *)
Definition removalTarget (c : Command) : string :=
  replaceFirst "./" "" (default "" (last (arguments c))).

Definition simExec (sc : Scenario) (c : Command) (w : SimWorld)
  : ExecResult string * SimWorld :=
  let ok (fs : FileSystem) :=
    ({| failure := None; lines := [] |}, {| simFs := fs; polls := polls w |}) in
  if decide (program c = "yarn") then
    if republished sc
    then ({| failure := Some "exit code 1";
             lines := ["YN0000: Publishing";
                       "YN0035: You cannot publish over the previously published versions: 2.0.0-canary.1."] |},
          w)
    else ({| failure := None; lines := ["YN0000: Done"] |}, w)
  else if decide (program c = "rm") then
    ok (filter (fun entry : Path * Entry =>
                  head entry.1 ≠ Some (removalTarget c))
          (simFs w))
  else if decide (program c = "curl") then
    ok (<[[simTarball] := FileEntry [Byte.x1f; Byte.x8b]]> (simFs w))
  else if decide (program c = "tar") then
    ok (<[["package"; "package.json"] := FileEntry [Byte.x7b; Byte.x7d]]>
          (<[["package"] := DirEntry]> (simFs w)))
  else if decide (program c = "git" ∧ head (arguments c) = Some "clone") then
    ok (<[["tldraw-assets"] := DirEntry]> (simFs w))
  else if decide (program c = "git" ∧ head (arguments c) = Some "push") then
    ({| failure := if pushFails sc then Some "remote rejected" else None;
        lines := [] |}, w)
  else ok (simFs w).

Definition simFetch (sc : Scenario) (_ : string) (w : SimWorld)
  : (string + Z) * SimWorld :=
  (inr (if (polls w <? availableAfter sc)%nat then 404 else 200),
   {| simFs := simFs w; polls := Datatypes.S (polls w) |}).

Definition simTag (_ : string) : string := "canary".

Definition simWithFs (fs : FileSystem) (w : SimWorld) : SimWorld :=
  {| simFs := fs; polls := polls w |}.

Definition simStart : RunState SimWorld :=
  {| world := {| simFs := {[ [] := DirEntry ]}; polls := 0 |}; ran := [] |}.

Definition simPublishPackage (sc : Scenario) : @Step SimWorld string :=
  publishPackage (simExec sc) (simFetch sc) simTag simFs simWithFs simPackage.

Definition pushRejected : Scenario :=
  {| republished := false; availableAfter := 0; pushFails := true |}.

Definition alreadyThere : Scenario :=
  {| republished := true; availableAfter := 0; pushFails := false |}.

Definition slowRegistry : Scenario :=
  {| republished := false; availableAfter := 9; pushFails := false |}.

Definition deadRegistry : Scenario :=
  {| republished := false; availableAfter := 10; pushFails := false |}.

Definition gitPush : Command :=
  commandIn "./tldraw-assets" "git"
    ["push"; "-f"; "-u"; "origin"; "utils-2.0.0-canary.1"].


(** ** More definitions for the retry engine *)

(** Calls with a wait of [ms] between each two of them. *)
Definition interleave (ms : Z) (cs : list RetryArgs) : list RetryEvent :=
  match cs with
  | [] => []
  | a :: rest => Invoked a :: flat_map (fun b => [Waited ms; Invoked b]) rest
  end.

(** The largest number of invocations that [retry] makes. *)
Definition attemptBudget (opts : RetryOpts) : nat :=
  Z.to_nat (Z.max 1 (numAttempts opts)).

(** ** More sample inputs for the sorter *)

(** The packages of [chainRegistry], dependencies first. *)
Definition orderedRegistry : Registry :=
  [ ("@tldraw/utils", package "@tldraw/utils" []);
    ("@tldraw/editor", package "@tldraw/editor" ["@tldraw/utils"]);
    ("@tldraw/tldraw", package "@tldraw/tldraw" ["@tldraw/editor"]) ].

(** ** More definitions for the recursive copy *)

(** What a copy to [dest] may change: a path that differs afterwards
    exists afterwards, was no directory before, and lies at or below
    [dest], or is a directory created on the way to [dest]. *)
Definition changedWithin (dest : Path) (fs f : FileSystem) : Prop :=
  ∀ q, f !! q = fs !! q ∨
       (is_Some (f !! q) ∧ fs !! q ≠ Some DirEntry ∧
        (dest `prefix_of` q ∨
         (q `prefix_of` dest ∧ q ≠ [] ∧ fs !! q = None ∧
          f !! q = Some DirEntry))).

(** ** The dependency graph builder (publishing.ts, [getPackageDetails],
       [getAllPackageDetails]) and [getLatestVersion] *)

(** What the code reads of a parsed [package.json]: [name], [version],
    whether [private] is truthy, and the own properties of
    [dependencies], in the order of [Object.keys] ([None] when the field
    is absent or [null]). *)
Record Manifest := {
  manifestName : string;
  manifestVersion : string;
  manifestPrivate : bool;
  manifestDependencies : option (list (string * string))
}.

(** [obj[k] = v]: the value of an own property is replaced where the
    property stands, a new property comes last. *)
Fixpoint setProperty {A : Type} (k : string) (v : A) (obj : list (string * A))
  : list (string * A) :=
  match obj with
  | [] => [(k, v)]
  | (k', v') :: rest =>
      if decide (k' = k) then (k, v) :: rest
      else (k', v') :: setProperty k v rest
  end.

(** [Object.fromEntries(entries)], for keys that are no array indices
    (package names are not), which a JavaScript object lists in the order
    of their creation. *)
Definition fromEntries {A : Type} (entries : list (string * A))
  : list (string * A) :=
  foldl (fun obj entry => setProperty entry.1 entry.2 obj) [] entries.

(** [list.map(f)] for a callback that may throw. *)
Fixpoint mapThrowing {A B : Type} (f : A -> Completion B) (l : list A)
  : Completion (list B) :=
  match l with
  | [] => Returned []
  | x :: rest =>
      match f x with
      | Returned y =>
          match mapThrowing f rest with
          | Returned ys => Returned (y :: ys)
          | Thrown message => Thrown message
          | Exhausted => Exhausted
          end
      | Thrown message => Thrown message
      | Exhausted => Exhausted
      end
  end.

(** The string of an absolute path. *)
Definition pathString (p : Path) : string := "/" +:+ String.concat "/" p.

Section GraphBuilder.

(** [BUBLIC_ROOT] of [./file], and [JSON.parse(readFileSync(file, 'utf8'))]
    read as a manifest; on a text that is no JSON it throws an error, given
    here by its message. *)
Variable bublicRoot : Path.
Variable parseManifest : list Byte.byte -> string + Manifest.

Definition packagesRoot : Path := bublicRoot ++ ["packages"].

(** [Object.keys(packageJson.dependencies ?? {})
       .filter((dep) => dep.startsWith('@tldraw'))]. *)
Definition localDepsOf (manifest : Manifest) : list string :=
  List.filter (String.prefix "@tldraw")
    (default [] (manifestDependencies manifest)).*1.

Definition detailsFrom (dirPath : Path) (manifest : Manifest)
  : PackageDetails :=
  {| name := manifestName manifest;
     dir := pathString dirPath;
     localDeps := localDepsOf manifest;
     version := manifestVersion manifest |}.

(** [getPackageDetails(dir)]; [None] stands for [null]. *)
Definition getPackageDetails (dirPath : Path) (fs : FileSystem)
  : Completion (option PackageDetails) :=
  match fs !! (dirPath ++ ["package.json"]) with
  | None => Returned None
  | Some DirEntry => Thrown "EISDIR"
  | Some (FileEntry text) =>
      match parseManifest text with
      | inr packageJson =>
          if manifestPrivate packageJson then Returned None
          else Returned (Some (detailsFrom dirPath packageJson))
      | inl message => Thrown message
      end
  end.

(** [readdirSync(join(BUBLIC_ROOT, 'packages'))]. *)
Definition listPackages (fs : FileSystem) : Completion (list string) :=
  match fs !! packagesRoot with
  | Some DirEntry => Returned (readdirSync packagesRoot fs)
  | Some (FileEntry _) => Thrown "ENOTDIR"
  | None => Thrown "ENOENT"
  end.

(** [getAllPackageDetails()]. *)
Definition getAllPackageDetails (fs : FileSystem) : Completion Registry :=
  match listPackages fs with
  | Returned dirs =>
      match mapThrowing
              (fun d => getPackageDetails (packagesRoot ++ [d]) fs) dirs with
      | Returned results =>
          Returned
            (fromEntries
               ((fun result : PackageDetails => (name result, result))
                  <$> omap id results))
      | Thrown message => Thrown message
      | Exhausted => Exhausted
      end
  | Thrown message => Thrown message
  | Exhausted => Exhausted
  end.

(** Lines 138 and 140 of [publish]: the registry is built and sorted. *)
Definition publishOrder (fs : FileSystem)
  : Completion (list PackageDetails) :=
  match getAllPackageDetails fs with
  | Returned packages => topologicalSortPackages packages
  | Thrown message => Thrown message
  | Exhausted => Exhausted
  end.

(** The public manifest found in the directory [d] of [packages]. *)
Definition publicManifest (fs : FileSystem) (d : string) (manifest : Manifest)
  : Prop :=
  d ∈ readdirSync packagesRoot fs ∧
  ∃ text, fs !! (packagesRoot ++ [d; "package.json"]) = Some (FileEntry text) ∧
          parseManifest text = inr manifest ∧
          manifestPrivate manifest = false.

End GraphBuilder.

(** *** [getLatestVersion] *)

Section LatestVersion.

(** [semver]: the type [SemVer], [parse] ([None] for [null]) and [compare]
    (negative, zero or positive, here a [comparison]); [compare] throws a
    [TypeError] when given [null], here the message [invalidVersion]. *)
Variable SemVer : Type.
Variable parse : string -> option SemVer.
Variable compare : SemVer -> SemVer -> comparison.
Variable invalidVersion : string.

Definition compareParsed (a b : option SemVer) : Completion comparison :=
  match a, b with
  | Some x, Some y => Returned (compare x y)
  | _, _ => Thrown invalidVersion
  end.

(** [array.sort(compare)] as a stable insertion sort: [x] goes behind the
    elements that are not greater than it.  For a comparator that is a
    total preorder on the elements every stable sort gives this result, and
    with two or more elements every element is compared at least once, so
    a [null] among them makes the comparator throw. *)
Fixpoint insertSorted (x : option SemVer) (l : list (option SemVer))
  : Completion (list (option SemVer)) :=
  match l with
  | [] => Returned [x]
  | y :: rest =>
      match compareParsed x y with
      | Returned Lt => Returned (x :: y :: rest)
      | Returned _ =>
          match insertSorted x rest with
          | Returned l' => Returned (y :: l')
          | Thrown message => Thrown message
          | Exhausted => Exhausted
          end
      | Thrown message => Thrown message
      | Exhausted => Exhausted
      end
  end.

Fixpoint sortFrom (acc l : list (option SemVer))
  : Completion (list (option SemVer)) :=
  match l with
  | [] => Returned acc
  | x :: rest =>
      match insertSorted x acc with
      | Returned acc' => sortFrom acc' rest
      | Thrown message => Thrown message
      | Exhausted => Exhausted
      end
  end.

(** No element is greater than one that stands behind it. *)
Fixpoint ascending (l : list SemVer) : Prop :=
  match l with
  | [] => True
  | x :: rest => Forall (fun y => compare x y ≠ Gt) rest ∧ ascending rest
  end.

Definition sortVersions (l : list (option SemVer))
  : Completion (list (option SemVer)) :=
  sortFrom [] l.

(** Lines 94 to 103, on the registry that [getAllPackageDetails]
    returned. *)
Definition latestVersionOf (packages : Registry) : Completion SemVer :=
  let allVersions := (fun p : PackageDetails => parse (version p))
                       <$> packages.*2 in
  match sortVersions allVersions with
  | Returned sortedVersions =>
      match last sortedVersions with
      | Some (Some latestVersion) => Returned latestVersion
      | _ => Thrown "Could not find latest version"
      end
  | Thrown message => Thrown message
  | Exhausted => Exhausted
  end.

Variable bublicRoot : Path.
Variable parseManifest : list Byte.byte -> string + Manifest.

(** [getLatestVersion()]. *)
Definition getLatestVersion (fs : FileSystem) : Completion SemVer :=
  match getAllPackageDetails bublicRoot parseManifest fs with
  | Returned packages => latestVersionOf packages
  | Thrown message => Thrown message
  | Exhausted => Exhausted
  end.

End LatestVersion.

(** *** Sample inputs *)

(** A stand-in for [JSON.parse]: three one-byte texts are read as
    manifests, anything else is no JSON. *)
Definition sampleManifest (n : string) (isPrivate : bool)
  (deps : list string) : Manifest :=
  {| manifestName := n; manifestVersion := "2.0.0-canary.1";
     manifestPrivate := isPrivate;
     manifestDependencies :=
       Some ((fun d => (d, "workspace:*")) <$> deps) |}.

Definition sampleParse (text : list Byte.byte) : string + Manifest :=
  match text with
  | [Byte.x75] =>
      inr (sampleManifest "@tldraw/utils" false ["lodash"])
  | [Byte.x65] =>
      inr (sampleManifest "@tldraw/editor" false
             ["@tldraw/utils"; "react"; "@tldraw/internal"])
  | [Byte.x69] => inr (sampleManifest "@tldraw/internal" true [])
  | _ => inl "Unexpected token in JSON at position 0"
  end.

Definition manifestFile (b : Byte.byte) : Entry := FileEntry [b].

(** A monorepo with a public [utils], a public [editor] that depends on
    [utils] and on the private [internal], and a directory without a
    manifest. *)
Definition monorepo : FileSystem :=
  list_to_map
    [ ([], DirEntry);
      (["repo"], DirEntry);
      (["repo"; "packages"], DirEntry);
      (["repo"; "packages"; "utils"], DirEntry);
      (["repo"; "packages"; "utils"; "package.json"], manifestFile Byte.x75);
      (["repo"; "packages"; "editor"], DirEntry);
      (["repo"; "packages"; "editor"; "package.json"], manifestFile Byte.x65);
      (["repo"; "packages"; "internal"], DirEntry);
      (["repo"; "packages"; "internal"; "package.json"],
       manifestFile Byte.x69);
      (["repo"; "packages"; "docs"], DirEntry) ].

(** The registry of [monorepo]. *)
Definition monorepoRegistry : Registry :=
  [ ("@tldraw/utils",
     {| name := "@tldraw/utils"; dir := "/repo/packages/utils";
        localDeps := []; version := "2.0.0-canary.1" |});
    ("@tldraw/editor",
     {| name := "@tldraw/editor"; dir := "/repo/packages/editor";
        localDeps := ["@tldraw/utils"; "@tldraw/internal"];
        version := "2.0.0-canary.1" |}) ].

(** Versions as numbers, for the examples: the text is the length. *)
Definition lengthVersion (s : string) : option nat :=
  if decide (s = "") then None else Some (String.length s).

(** Three packages with versions of different lengths, and a registry with
    a version that does not parse. *)
Definition versioned (n v : string) : string * PackageDetails :=
  (n, {| name := n; dir := "/repo/packages/" +:+ n; localDeps := [];
         version := v |}).

Definition versionedRegistry : Registry :=
  [ versioned "@tldraw/utils" "2.0.0";
    versioned "@tldraw/editor" "2.0.0-canary.1";
    versioned "@tldraw/tldraw" "2.0.0-beta" ].

Definition brokenRegistry : Registry :=
  [ versioned "@tldraw/utils" "2.0.0"; versioned "@tldraw/editor" "" ].

(** [monorepo] with a manifest in [docs] that is no JSON. *)
Definition brokenMonorepo : FileSystem :=
  <[ ["repo"; "packages"; "docs"; "package.json"] := manifestFile Byte.x00 ]>
    monorepo.

(** ** More definitions for the publish sequencer *)

(** The commands of lines 216 to 240, in order. *)
Definition fetched (packageDetails : PackageDetails) : list Command :=
  [ removeAssets; removePackage;
    command "curl" ["-O"; tarballUrl packageDetails];
    command "git"
      ["clone"; "https://github.com/superwall-me/tldraw-assets.git"];
    command "tar" ["-xzf"; tarballName packageDetails; "-C"; "./"] ].

(** The commands of a package once it is seen on the registry, lines 216
    to 282. *)
Definition script (packageDetails : PackageDetails) : list Command :=
  fetched packageDetails ++ downstream packageDetails
  ++ cleanup packageDetails.

(** The commands of a whole cycle in which [yarn npm publish] was run [k]
    times. *)
Definition cycleLog (prereleaseTag : string -> string) (k : nat)
  (packageDetails : PackageDetails) : list Command :=
  replicate k (yarnPublish prereleaseTag packageDetails)
  ++ script packageDetails.

Section StepLog.
Context {World Err : Type}.

(** The step [a] runs the commands [cs], in order, and stops after the one
    that fails. *)
Definition logs (a : @Step World Err) (cs : list Command) : Prop :=
  ∀ st, ∃ cs', ran (a st).2 = ran st ++ cs' ∧ cs' `prefix_of` cs ∧
               ((a st).1 = Resolved → cs' = cs).

End StepLog.

(** A second package for the simulated run. *)
Definition simEditor : PackageDetails :=
  package "@tldraw/editor" ["@tldraw/utils"].

(** * Theorems *)

(** ** The retry engine *)

Section RetryProofs.
Context {S E : Type}.
Variable fn : RetryArgs -> S -> Settled E * S.
Variable opts : RetryOpts.

Lemma attemptLoop_eq attempts s :
  attemptLoop fn opts attempts s =
  match fn (argsAt opts attempts) s with
  | (Resolved, s1) =>
      {| settled := Resolved; final := s1;
         events := [Invoked (argsAt opts attempts)] |}
  | (Rejected err, s1) =>
      if Z_ge_dec (attempts + 1) (numAttempts opts)
      then {| settled := Rejected err; final := s1;
              events := [Invoked (argsAt opts attempts)] |}
      else
        let run := attemptLoop fn opts (attempts + 1) s1 in
        {| settled := settled run; final := final run;
           events := Invoked (argsAt opts attempts) :: Waited (delay opts)
                       :: events run |}
  end.
Proof.
  simp attemptLoop.
  destruct (fn (argsAt opts attempts) s) as [[|err] s1]; simpl; [done|].
  destruct (Z_ge_dec (attempts + 1) (numAttempts opts)); done.
Qed.

Lemma attemptLoop_shape (n : nat) :
  ∀ a s, (Z.to_nat (numAttempts opts - a) ≤ n)%nat →
         ∃ m, loopShape fn opts a s (attemptLoop fn opts a s) m.
Proof.
  induction n as [|n IH]; intros a s Hn; rewrite attemptLoop_eq;
    destruct (fn (argsAt opts a) s) as [[|err] s1] eqn:Hfn.
  1,3: exists 0%nat; split; simpl;
       [by rewrite Z.add_0_r|done|lia|by rewrite Hfn|done|done].
  all: destruct (Z_ge_dec (a + 1) (numAttempts opts)) as [Hge|Hlt].
  1,3: exists 0%nat; split; simpl;
       [by rewrite Z.add_0_r|done|lia|by rewrite Hfn|done|lia].
  { lia. }
  destruct (IH (a + 1) s1 ltac:(lia)) as [m Hm].
  exists (Datatypes.S m). destruct Hm as [Hc Hw Hr Hl Hcont Hex].
  split; cbn [events settled final].
  - change (calls (?x :: Waited ?d :: ?tr)) with
      (match x with Invoked a => a :: calls tr | Waited _ => calls tr end).
    rewrite Hc.
    change (seq 0 (Datatypes.S (Datatypes.S m)))
      with (0%nat :: seq 1 (Datatypes.S m)).
    rewrite <- fmap_S_seq, fmap_cons, <- list_fmap_compose.
    f_equal; [f_equal; lia|].
    apply list_fmap_ext. intros _ k _. simpl. f_equal. lia.
  - change (waits (Invoked ?x :: Waited ?d :: ?tr)) with (d :: waits tr).
    by rewrite Hw.
  - intros [|k] Hk; simpl; rewrite Hfn; simpl; [done|]. apply Hr. lia.
  - simpl. by rewrite Hfn.
  - intros _. destruct (decide (m = 0%nat)) as [->|Hm0]; [lia|].
    specialize (Hcont Hm0). lia.
  - intros Hrej. specialize (Hex Hrej). lia.
Qed.

Lemma retry_shape s : ∃ m, loopShape fn opts 0 s (retry fn opts s) m.
Proof. by apply (attemptLoop_shape (Z.to_nat (numAttempts opts - 0))). Qed.

Lemma invocations_shape a s run m :
  loopShape fn opts a s run m → invocations run = Datatypes.S m.
Proof.
  intros Hm. unfold invocations.
  by rewrite (shape_calls _ _ _ _ _ _ Hm), length_fmap, length_seq.
Qed.

Lemma isRejected_true (r : Settled E) :
  isRejected r = true ↔ ∃ err, r = Rejected err.
Proof. destruct r; simpl; split; [done|by intros [? ?]|by eexists|done]. Qed.

Lemma callFrom_stateFrom (k : nat) :
  ∀ a s, callFrom fn opts k a s
         = fn (argsAt opts (a + Z.of_nat k)) (stateFrom fn opts k a s).
Proof.
  induction k as [|k IH]; intros a s; simpl.
  - by rewrite Z.add_0_r.
  - rewrite IH. do 2 f_equal. lia.
Qed.

Lemma invocation_stateBefore (n : nat) (s : S) :
  (1 ≤ n)%nat →
  invocation fn opts n s
  = fn (argsAt opts (Z.of_nat n - 1)) (stateBefore fn opts n s).
Proof.
  intros Hn. unfold invocation, stateBefore. rewrite callFrom_stateFrom.
  do 2 f_equal. lia.
Qed.

Lemma retry_first_success (s : S) (N : nat) :
  (1 ≤ N)%nat → Z.of_nat N ≤ numAttempts opts →
  (∀ n, (1 ≤ n < N)%nat → isRejected (invocation fn opts n s).1 = true) →
  (invocation fn opts N s).1 = Resolved →
  settled (retry fn opts s) = Resolved ∧
  invocations (retry fn opts s) = N ∧
  final (retry fn opts s) = (invocation fn opts N s).2 ∧
  waits (events (retry fn opts s)) = replicate (N - 1) (delay opts).
Proof.
  intros HN HNle Hfail Hok. destruct (retry_shape s) as [m Hm].
  rewrite (invocations_shape _ _ _ _ Hm), (shape_waits _ _ _ _ _ _ Hm).
  pose proof (shape_last _ _ _ _ _ _ Hm) as Hlast.
  assert (Nat.pred N = m) as Heq.
  { unfold invocation in *.
    destruct (lt_eq_lt_dec (Nat.pred N) m) as [[Hlt|Heq]|Hgt]; [|done|].
    - pose proof (shape_rejected _ _ _ _ _ _ Hm _ Hlt) as Hrej.
      rewrite Hok in Hrej. done.
    - specialize (Hfail (Datatypes.S m) ltac:(lia)). simpl in Hfail.
      rewrite <- Hlast in Hfail. simpl in Hfail.
      pose proof (shape_exhausted _ _ _ _ _ _ Hm Hfail). lia. }
  unfold invocation in *. rewrite Heq in *. rewrite <- Hlast in *.
  simpl in *. repeat split; [done|lia|f_equal; lia].
Qed.

Lemma retry_all_fail (s : S) :
  1 ≤ numAttempts opts →
  (∀ n, (1 ≤ n)%nat → Z.of_nat n ≤ numAttempts opts →
        isRejected (invocation fn opts n s).1 = true) →
  Z.of_nat (invocations (retry fn opts s)) = numAttempts opts ∧
  (settled (retry fn opts s), final (retry fn opts s))
    = invocation fn opts (Z.to_nat (numAttempts opts)) s ∧
  waits (events (retry fn opts s))
    = replicate (Z.to_nat (numAttempts opts) - 1) (delay opts).
Proof.
  intros Hpos Hfail. destruct (retry_shape s) as [m Hm].
  rewrite (invocations_shape _ _ _ _ Hm), (shape_waits _ _ _ _ _ _ Hm).
  pose proof (shape_last _ _ _ _ _ _ Hm) as Hlast.
  pose proof (shape_continued _ _ _ _ _ _ Hm) as Hcont.
  assert (Z.of_nat (Datatypes.S m) = numAttempts opts) as Hcount.
  { assert (Z.of_nat (Datatypes.S m) ≤ numAttempts opts) as Hle.
    { destruct (decide (m = 0%nat)) as [->|Hm0]; [lia|].
      specialize (Hcont Hm0). lia. }
    specialize (Hfail (Datatypes.S m) ltac:(lia) Hle).
    unfold invocation in Hfail. simpl in Hfail. rewrite <- Hlast in Hfail.
    pose proof (shape_exhausted _ _ _ _ _ _ Hm Hfail). lia. }
  split; [done|]. rewrite <- Hcount, Nat2Z.id. unfold invocation. simpl.
  split; [done|]. f_equal. lia.
Qed.

(** C2.  With [numAttempts >= 1]: when the operation is rejected on its
    first [N - 1] invocations and resolves on the [N]-th, [N] being at most
    [numAttempts], [retry] resolves and has invoked it exactly [N] times;
    when the operation is rejected on every invocation, [retry] has invoked
    it exactly [numAttempts] times and rejects with the error of the last
    invocation. *)
Theorem retry_invocation_count (s : S) :
  1 ≤ numAttempts opts →
  (∀ N : nat,
     (1 ≤ N)%nat → Z.of_nat N ≤ numAttempts opts →
     (∀ n, (1 ≤ n < N)%nat → isRejected (invocation fn opts n s).1 = true) →
     (invocation fn opts N s).1 = Resolved →
     settled (retry fn opts s) = Resolved ∧
     invocations (retry fn opts s) = N) ∧
  ((∀ n, (1 ≤ n)%nat → isRejected (invocation fn opts n s).1 = true) →
   Z.of_nat (invocations (retry fn opts s)) = numAttempts opts ∧
   ∃ err, settled (retry fn opts s) = Rejected err ∧
          (invocation fn opts (Z.to_nat (numAttempts opts)) s).1
            = Rejected err).
Proof.
  intros Hpos. split.
  - intros N HN HNle Hfail Hok.
    destruct (retry_first_success s N) as (? & ? & _); done.
  - intros Hfail.
    destruct (retry_all_fail s Hpos) as (Hcount & Hlast & _).
    { intros n Hn _. by apply Hfail. }
    split; [done|].
    specialize (Hfail (Z.to_nat (numAttempts opts)) ltac:(lia)).
    rewrite <- Hlast in *. simpl in *.
    apply isRejected_true in Hfail as [err Herr]. by exists err.
Qed.

(** C7.  For every [numAttempts], the first call receives [attempt = 0],
    and the [k]-th call ([k] from 1) receives [attempt = k - 1],
    [remaining = numAttempts - (k - 1)] and [total = numAttempts]; it is
    made only after every earlier call was rejected. *)
Theorem retry_argument_object (s : S) :
  head (calls (events (retry fn opts s)))
    = Some {| attempt := 0; remaining := numAttempts opts;
              total := numAttempts opts |} ∧
  ∀ (k : nat) (a : RetryArgs),
    (1 ≤ k)%nat →
    calls (events (retry fn opts s)) !! (k - 1)%nat = Some a →
    attempt a = Z.of_nat k - 1 ∧
    remaining a = numAttempts opts - (Z.of_nat k - 1) ∧
    total a = numAttempts opts ∧
    ∀ j, (1 ≤ j < k)%nat → isRejected (invocation fn opts j s).1 = true.
Proof.
  destruct (retry_shape s) as [m Hm]. rewrite (shape_calls _ _ _ _ _ _ Hm).
  split.
  - simpl. unfold argsAt. simpl. do 2 f_equal. lia.
  - intros k a Hk Hlook.
    apply list_lookup_fmap_Some in Hlook as (i & -> & Hi).
    apply lookup_seq in Hi as [-> Hlt]. simpl.
    split; [lia|]. split; [lia|]. split; [done|].
    intros j Hj. unfold invocation.
    apply (shape_rejected _ _ _ _ _ _ Hm). lia.
Qed.

(** C10.  Whatever [numAttempts] is, the first thing [retry] does is to
    invoke the operation; with [numAttempts <= 0] an operation that is
    rejected is invoked once, and [retry] rejects with its error without a
    wait. *)
Theorem retry_first_call_unconditional (s : S) :
  head (events (retry fn opts s)) = Some (Invoked (argsAt opts 0)) ∧
  (1 ≤ invocations (retry fn opts s))%nat ∧
  (numAttempts opts ≤ 0 →
   ∀ err s1, fn (argsAt opts 0) s = (Rejected err, s1) →
             retry fn opts s
               = {| settled := Rejected err; final := s1;
                    events := [Invoked (argsAt opts 0)] |}).
Proof.
  split; [|split].
  - unfold retry. rewrite attemptLoop_eq.
    destruct (fn (argsAt opts 0) s) as [[|err] s1]; [done|].
    by destruct (Z_ge_dec (0 + 1) (numAttempts opts)).
  - destruct (retry_shape s) as [m Hm].
    rewrite (invocations_shape _ _ _ _ Hm). lia.
  - intros Hle err s1 Hfn. unfold retry. rewrite attemptLoop_eq, Hfn.
    destruct (Z_ge_dec (0 + 1) (numAttempts opts)); [done|lia].
Qed.

End RetryProofs.


Lemma retry_invocation_count_witness :
  let opts := {| numAttempts := 5; delay := 10000 |} in
  1 ≤ numAttempts opts ∧
  (settled (retry (flaky 2) opts 0%nat) = Resolved ∧
   invocations (retry (flaky 2) opts 0%nat) = 3%nat) ∧
  (Z.of_nat (invocations (retry hopeless opts 0%nat)) = numAttempts opts ∧
   ∃ err, settled (retry hopeless opts 0%nat) = Rejected err ∧
          (invocation hopeless opts (Z.to_nat (numAttempts opts)) 0%nat).1
            = Rejected err).
Proof.
  intros opts.
  assert (1 ≤ numAttempts opts) as Hpos by (simpl; lia).
  split; [exact Hpos|]. split.
  - apply (proj1 (retry_invocation_count (flaky 2) opts 0%nat Hpos) 3%nat);
      [lia|simpl; lia| |reflexivity].
    intros n Hn. assert (n = 1 ∨ n = 2)%nat as [-> | ->] by lia; reflexivity.
  - apply (proj2 (retry_invocation_count hopeless opts 0%nat Hpos)).
    intros n Hn. unfold invocation. rewrite callFrom_stateFrom. reflexivity.
Defined.

Lemma retry_argument_object_witness :
  let opts := {| numAttempts := 5; delay := 10000 |} in
  let third := {| attempt := 2; remaining := 3; total := 5 |} in
  calls (events (retry (flaky 2) opts 0%nat)) !! (3 - 1)%nat = Some third ∧
  attempt third = Z.of_nat 3 - 1 ∧
  remaining third = numAttempts opts - (Z.of_nat 3 - 1) ∧
  total third = numAttempts opts ∧
  ∀ j, (1 ≤ j < 3)%nat →
       isRejected (invocation (flaky 2) opts j 0%nat).1 = true.
Proof.
  intros opts third.
  assert (calls (events (retry (flaky 2) opts 0%nat)) !! (3 - 1)%nat
          = Some third) as Hthird by (vm_compute; reflexivity).
  split; [exact Hthird|].
  exact (proj2 (retry_argument_object (flaky 2) opts 0%nat) 3%nat third
           ltac:(lia) Hthird).
Defined.

Lemma retry_first_call_unconditional_witness :
  let opts := {| numAttempts := 0; delay := 10000 |} in
  numAttempts opts ≤ 0 ∧
  flaky 2 (argsAt opts 0) 0%nat = (Rejected 0%nat, 1%nat) ∧
  retry (flaky 2) opts 0%nat
  = {| settled := Rejected 0%nat; final := 1%nat;
       events := [Invoked (argsAt opts 0)] |}.
Proof.
  intros opts.
  assert (numAttempts opts ≤ 0) as Hle by (simpl; lia).
  assert (flaky 2 (argsAt opts 0) 0%nat = (Rejected 0%nat, 1%nat)) as Hfn
    by reflexivity.
  split; [exact Hle|]. split; [exact Hfn|].
  exact (proj2 (proj2 (retry_first_call_unconditional (flaky 2) opts 0%nat))
           Hle 0%nat 1%nat Hfn).
Defined.

(** Three attempts, two waits. *)
Example retry_flaky :
  retry (flaky 2) {| numAttempts := 5; delay := 10000 |} 0%nat
  = {| settled := Resolved; final := 3%nat;
       events := [ Invoked {| attempt := 0; remaining := 5; total := 5 |};
                   Waited 10000;
                   Invoked {| attempt := 1; remaining := 4; total := 5 |};
                   Waited 10000;
                   Invoked {| attempt := 2; remaining := 3; total := 5 |} ] |}.
Proof. vm_compute. reflexivity. Qed.

(** ** The topological sorter *)

Section SorterProofs.
Variable packages : Registry.

Lemma getPackage_Some_key k pd :
  getPackage packages k = Some pd → k ∈ keys packages.
Proof.
  unfold keys. induction packages as [|[k' pd'] rest IH]; simpl; [done|].
  case_decide; [intros _; subst; left | right; auto].
Qed.

Lemma getPackage_None_key k :
  getPackage packages k = None ↔ k ∉ keys packages.
Proof.
  unfold keys. induction packages as [|[k' pd'] rest IH]; simpl.
  - split; [intros _; apply not_elem_of_nil | done].
  - rewrite not_elem_of_cons. case_decide; [|rewrite IH]; naive_solver.
Qed.

Lemma size_list_to_set_le (l : list string) :
  (size (list_to_set l : gset string) ≤ length l)%nat.
Proof.
  induction l as [|x l IH].
  - by rewrite list_to_set_nil, size_empty.
  - rewrite list_to_set_cons, size_union_alt.
    rewrite size_singleton.
    assert (size ((list_to_set l : gset string) ∖ {[x]}) ≤ size (list_to_set l : gset string))%nat
      by (apply subseteq_size; set_solver).
    simpl length. lia.
Qed.

Lemma before_app_r {A} (x y : A) l l' : before x y l → before x y (l ++ l').
Proof.
  intros (i & j & Hij & Hi & Hj). exists i, j.
  split; [done|]. split; by apply lookup_app_l_Some.
Qed.

Lemma before_snoc {A} (x y : A) l : x ∈ l → before x y (l ++ [y]).
Proof.
  intros (i & Hi)%list_elem_of_lookup. exists i, (length l).
  split; [by eapply lookup_lt_Some|].
  split; [by apply lookup_app_l_Some|].
  by rewrite lookup_app_r, Nat.sub_diag.
Qed.

Lemma before_trans {A} (x y z : A) l :
  NoDup l → before x y l → before y z l → before x z l.
Proof.
  intros Hnd (i & j & Hij & Hi & Hj) (j' & k & Hjk & Hj' & Hk).
  assert (j = j') as <- by (by eapply NoDup_lookup).
  exists i, k. split; [lia|done].
Qed.

Lemma forEach_visit_spec fuel (mk : string → list string) :
  visitSpec packages fuel →
  ∀ l st ks,
    sortInv packages ks st →
    (∀ d q, d ∈ l → q ∈ visited st → q ∉ ks → tc (edge packages) q d) →
    (size (keySet packages ∖ visited st) < fuel)%nat →
    eachPost packages mk l ks st (forEach (λ d, visit packages fuel d (mk d)) l st).
Proof.
  intros Hvisit l. induction l as [|d l IH]; intros st ks Hinv Hgray Hsize; simpl.
  - exists []. rewrite app_nil_r. split_and!; [done|set_solver..].
  - pose proof (Hvisit d (mk d) st ks Hinv) as Hd.
    specialize (Hd ltac:(intros; eapply Hgray; [left|..]; done) Hsize).
    destruct (visit packages fuel d (mk d) st) as [st1|m|]; simpl in *; [|by set_solver|done].
    destruct Hd as (new1 & Hinv1 & Hvis1 & Hfresh1 & Hd1).
    specialize (IH st1 (ks ++ new1) Hinv1).
    assert (visited st ⊆ visited st1) as Hmono by set_solver.
    specialize (IH ltac:(intros d' q ? Hq Hnq; apply (Hgray d' q); set_solver)).
    specialize (IH ltac:(
      eapply Nat.le_lt_trans; [apply subseteq_size|exact Hsize]; set_solver)).
    destruct (forEach _ l st1) as [st2|m|]; simpl in *; [| |done].
    + destruct IH as (new2 & Hinv2 & Hvis2 & Hfresh2 & Hl2).
      exists (new1 ++ new2). rewrite app_assoc. split_and!; [done|set_solver..].
    + destruct IH as (d' & tail & missing & ? & ? & ? & ? & ?).
      exists d', tail, missing. split_and!; [set_solver|tauto..].
Qed.

Lemma visit_spec (fuel : nat) : visitSpec packages fuel.
Proof.
  induction fuel as [|fuel IH]; intros p path st ks Hinv Hgray Hsize; [lia|].
  simpl. case_decide as Hp.
  { exists []. rewrite app_nil_r. split_and!; [done|set_solver..]. }
  destruct (getPackage packages p) as [pd|] eqn:Hpd; simpl.
  2:{ exists [], p. rewrite app_nil_r. repeat split; done. }
  set (st1 := {| sorted := sorted st; visited := {[p]} ∪ visited st |}).
  assert (sortInv packages ks st1) as Hinv1.
  { destruct Hinv. split; simpl; [done..| |done]. set_solver. }
  pose proof (forEach_visit_spec fuel (λ dep, path ++ [dep]) IH
                (localDeps pd) st1 ks Hinv1) as Heach.
  assert (p ∈ keySet packages) as HpK.
  { apply elem_of_list_to_set. by eapply getPackage_Some_key. }
  specialize (Heach ltac:(
    intros d q Hd Hq Hnq; simpl in Hq;
    assert (edge packages p d) by (by exists pd);
    destruct (decide (q = p)) as [->|];
      [by apply tc_once | eapply tc_r; [apply Hgray; set_solver|done]])).
  assert (size (keySet packages ∖ visited st1) < fuel)%nat as Hsize1.
  { assert (keySet packages ∖ ({[p]} ∪ visited st) ⊂ keySet packages ∖ visited st) as Hsub
      by set_solver.
    apply subset_size in Hsub. simpl. lia. }
  specialize (Heach Hsize1).
  destruct (forEach _ (localDeps pd) st1) as [st2|m|]; simpl in *; [| |done].
  - destruct Heach as (new & Hinv2 & Hvis2 & Hfresh & Hdeps).
    assert (p ∉ ks ++ new) as Hpnew.
    { intros [Hin|Hin]%elem_of_app.
      - apply Hp. by apply (inv_marked _ _ _ Hinv).
      - apply (Hfresh _ Hin). set_solver. }
    exists (new ++ [p]). rewrite app_assoc. split_and!.
    + destruct Hinv2 as [Hdet Hnd Hmark Hord]. split; simpl.
      * apply Forall2_app; [done|]. by constructor.
      * apply NoDup_app. split_and!; [done| |apply NoDup_singleton].
        intros x Hx ->%list_elem_of_singleton. done.
      * intros k [Hin| ->%list_elem_of_singleton]%elem_of_app; [by apply Hmark|].
        set_solver.
      * intros k d [Hin| ->%list_elem_of_singleton]%elem_of_app Hedge.
        { destruct (Hord k d Hin Hedge) as [Hb|Ht]; [left|by right].
          by apply before_app_r. }
        assert (d ∈ visited st2) as Hdv.
        { apply Hdeps. destruct Hedge as (pd' & Hpd' & Hd). congruence. }
        destruct (decide (d ∈ ks ++ new)) as [Hdone|Hnot].
        { left. by apply before_snoc. }
        right. destruct (decide (d = p)) as [->|Hne].
        { by apply tc_once. }
        apply Hgray; [set_solver|]. intros ?; apply Hnot; set_solver.
    + simpl. rewrite Hvis2. simpl. rewrite list_to_set_app_L. set_solver.
    + intros k [Hin| ->%list_elem_of_singleton]%elem_of_app; [|done].
      specialize (Hfresh k Hin). set_solver.
    + simpl. rewrite Hvis2. set_solver.
  - destruct Heach as (d & tail & missing & Hd & Hlast & -> & Hmiss & Hch).
    exists (d :: tail), missing.
    split; [done|]. split; [by rewrite <- app_assoc|]. split; [done|].
    split; [by exists pd | exact Hch].
Qed.

Lemma sort_spec :
  eachPost packages (λ k, [k]) (keys packages) [] initialState
    (forEach (λ k, visit packages (visitFuel packages) k [k])
       (keys packages) initialState).
Proof.
  apply forEach_visit_spec.
  - apply visit_spec.
  - split; simpl; [constructor|constructor|set_solver|set_solver].
  - set_solver.
  - simpl. unfold visitFuel.
    assert (size (keySet packages ∖ ∅) ≤ size (keySet packages))%nat
      by (apply subseteq_size; set_solver).
    pose proof (size_list_to_set_le (keys packages)) as Hle.
    unfold keys in Hle at 2. rewrite length_fmap in Hle.
    unfold keySet in *. lia.
Qed.

Lemma chain_last_key d tail missing :
  depsResolve packages →
  chain packages (d :: tail) →
  is_Some (getPackage packages d) →
  last (d :: tail) = Some missing →
  is_Some (getPackage packages missing).
Proof.
  intros Hres. revert d. induction tail as [|b tail IH]; intros d Hch Hd Hlast.
  - simpl in Hlast. by simplify_eq.
  - rewrite last_cons_cons in Hlast. destruct Hch as [Hedge Hch].
    apply (IH b); [done| |done]. by eapply Hres.
Qed.

Lemma detailsOf_omap ks l :
  detailsOf packages ks l → l = omap (getPackage packages) ks.
Proof.
  induction 1 as [|k pd ks l Hk _ IH]; [done|].
  simpl. rewrite Hk. simpl. f_equal. exact IH.
Qed.

Lemma detailsOf_before ks l d k pd pk :
  detailsOf packages ks l →
  getPackage packages d = Some pd →
  getPackage packages k = Some pk →
  before d k ks → before pd pk l.
Proof.
  intros Hdet Hd Hk (i & j & Hij & Hi & Hj). exists i, j. split; [done|].
  destruct (Forall2_lookup_l _ _ _ _ _ Hdet Hi) as (pd' & ? & ?).
  destruct (Forall2_lookup_l _ _ _ _ _ Hdet Hj) as (pk' & ? & ?).
  split; congruence.
Qed.

End SorterProofs.

Lemma values_omap (packages : Registry) :
  NoDup (keys packages) →
  packages.*2 = omap (getPackage packages) (keys packages).
Proof.
  unfold keys. induction packages as [|[k pd] rest IH]; [done|].
  rewrite !fmap_cons. simpl. intros [Hk Hnd]%NoDup_cons.
  rewrite decide_True by done. simpl. f_equal.
  rewrite IH by done. apply list_omap_ext, Forall_Forall2_diag, Forall_forall.
  intros k' Hk'. rewrite decide_False; [done|]. by intros ->.
Qed.

Section SorterTheorems.
Variable packages : Registry.

(** C9.  When every name in a [localDeps] is a key of the registry, with or
    without dependency cycles, [topologicalSortPackages] returns (the
    budget of nested calls is not used up and nothing is thrown), and what
    it returns holds each package of the registry exactly once. *)
Theorem sort_returns_each_package_once :
  depsResolve packages →
  NoDup (keys packages) →
  ∃ l, topologicalSortPackages packages = Returned l ∧ l ≡ₚ packages.*2.
Proof.
  intros Hres Hnd. unfold topologicalSortPackages.
  pose proof (sort_spec packages) as Hspec. fold initialState.
  destruct (forEach _ (keys packages) initialState) as [st|m|];
    simpl in Hspec; [| |done].
  - destruct Hspec as (new & Hinv & Hvis & _ & Hall).
    exists (sorted st). split; [done|].
    rewrite (detailsOf_omap _ _ _ (inv_details _ _ _ Hinv)).
    rewrite values_omap by done. apply omap_Permutation.
    apply NoDup_Permutation; [apply Hinv|done|].
    intros k. split.
    + intros Hk. destruct Hinv as [Hdet _ _ _].
      apply list_elem_of_lookup in Hk as [i Hi].
      destruct (Forall2_lookup_l _ _ _ _ _ Hdet Hi) as (pd & _ & Hpd).
      by eapply getPackage_Some_key.
    + intros Hk. specialize (Hall k Hk). rewrite Hvis in Hall.
      set_solver.
  - destruct Hspec as (d & tail & missing & Hd & Hlast & _ & Hmiss & Hch).
    exfalso. apply (chain_last_key packages d tail missing) in Hch; [|done| |done].
    + rewrite Hmiss in Hch. by destruct Hch.
    + destruct (getPackage packages d) eqn:Hgd; [done|].
      by apply getPackage_None_key in Hgd.
Qed.



End SorterTheorems.


Lemma getPackage_Some_elem (packages : Registry) (k : string)
  (pd : PackageDetails) :
  getPackage packages k = Some pd → In (k, pd) packages.
Proof.
  induction packages as [|[k' pd'] rest IH]; simpl; [done|].
  case_decide; [intros [= <-]; subst; by left | right; auto].
Qed.

Lemma depsResolveb_sound (packages : Registry) :
  depsResolveb packages = true → depsResolve packages.
Proof.
  unfold depsResolveb. rewrite forallb_forall.
  intros Hall k d (pd & Hk%getPackage_Some_elem & Hd).
  specialize (Hall _ Hk). simpl in Hall. rewrite forallb_forall in Hall.
  apply list_elem_of_In, Hall in Hd. by apply bool_decide_eq_true in Hd.
Qed.

Lemma rankedb_sound (rank : string → nat) (packages : Registry) :
  rankedb rank packages = true → acyclic packages.
Proof.
  unfold rankedb. rewrite forallb_forall. intros Hall.
  assert (∀ k d, edge packages k d → (rank d < rank k)%nat) as Hedge.
  { intros k d (pd & Hk%getPackage_Some_elem & Hd).
    specialize (Hall _ Hk). simpl in Hall. rewrite forallb_forall in Hall.
    apply list_elem_of_In, Hall in Hd. by apply Nat.ltb_lt in Hd. }
  assert (∀ k d, tc (edge packages) k d → (rank d < rank k)%nat) as Htc.
  { intros k d Hkd. induction Hkd as [k d H|k m d H _ IH].
    - by apply Hedge.
    - apply Hedge in H. lia. }
  intros k Hk. apply Htc in Hk. lia.
Qed.


Lemma sort_returns_each_package_once_witness :
  depsResolve cyclicRegistry ∧ NoDup (keys cyclicRegistry) ∧
  ∃ l, topologicalSortPackages cyclicRegistry = Returned l ∧
       l ≡ₚ cyclicRegistry.*2.
Proof.
  assert (depsResolve cyclicRegistry) as H1
    by (apply depsResolveb_sound; vm_compute; reflexivity).
  assert (NoDup (keys cyclicRegistry)) as H2
    by (apply (bool_decide_unpack _); vm_compute; exact I).
  split; [exact H1|]. split; [exact H2|].
  exact (sort_returns_each_package_once cyclicRegistry H1 H2).
Defined.

Lemma dangling_edge :
  ∃ k d, edge danglingRegistry k d ∧ getPackage danglingRegistry d = None.
Proof.
  exists "@tldraw/editor", "@tldraw/store". split; [|reflexivity].
  eexists. split; [reflexivity|]. simpl. left.
Qed.


(** The scenario of the specification: A depends on B, B depends on C, the
    order is C, B, A. *)
Example sort_chain :
  topologicalSortPackages chainRegistry
  = Returned [ package "@tldraw/utils" [];
               package "@tldraw/editor" ["@tldraw/utils"];
               package "@tldraw/tldraw" ["@tldraw/editor"] ].
Proof. vm_compute. reflexivity. Qed.

Example sort_dangling :
  topologicalSortPackages danglingRegistry
  = Thrown
      "Could not find package @tldraw/store. path: @tldraw/tldraw -> @tldraw/editor -> @tldraw/store".
Proof. vm_compute. reflexivity. Qed.

(** A cycle is not reported: the package met again is skipped. *)
Example sort_cycle :
  topologicalSortPackages cyclicRegistry
  = Returned [ package "@tldraw/state" ["@tldraw/editor"];
               package "@tldraw/editor" ["@tldraw/state"];
               package "@tldraw/tldraw" ["@tldraw/editor"] ].
Proof. vm_compute. reflexivity. Qed.

(** ** The recursive copy *)

Lemma stripPrefix_Some pre p r : stripPrefix pre p = Some r ↔ p = pre ++ r.
Proof.
  revert p. induction pre as [|a pre IH]; intros [|b p]; simpl.
  - split; congruence.
  - split; congruence.
  - split; [done|]. by destruct r.
  - case_decide as Hab.
    + subst. rewrite IH. split; congruence.
    + split; [done|]. intros [= ? ?]. done.
Qed.

Lemma childName_Some d p n : childName d p = Some n ↔ p = d ++ [n].
Proof.
  unfold childName. destruct (stripPrefix d p) as [r|] eqn:Hr.
  - apply stripPrefix_Some in Hr as ->.
    destruct r as [|x [|y r]]; split; intros H; simplify_eq; done.
  - split; [done|]. intros ->.
    assert (stripPrefix d (d ++ [n]) = Some [n]) by (by apply stripPrefix_Some).
    congruence.
Qed.

Lemma elem_of_readdirSync (d : Path) (fs : FileSystem) (n : string) :
  n ∈ readdirSync d fs ↔ is_Some (fs !! (d ++ [n])).
Proof.
  unfold readdirSync. rewrite list_elem_of_omap. split.
  - intros (p & Hp & ->%childName_Some).
    apply list_elem_of_fmap in Hp as ([p' e] & -> & He).
    apply elem_of_map_to_list in He. by eexists.
  - intros [e He]. exists (d ++ [n]). split; [|by apply childName_Some].
    apply list_elem_of_fmap. exists (d ++ [n], e). split; [done|].
    by apply elem_of_map_to_list.
Qed.

Lemma NoDup_omap_inj {A B} (f : A → option B) (l : list A) :
  (∀ x y z, f x = Some z → f y = Some z → x = y) →
  NoDup l → NoDup (omap f l).
Proof.
  intros Hinj. induction 1 as [|x l Hx Hnd IH]; simpl; [constructor|].
  destruct (f x) as [z|] eqn:Hfx; [|done].
  constructor; [|done].
  intros (y & Hy & Hfy)%list_elem_of_omap.
  by rewrite (Hinj _ _ _ Hfx Hfy) in Hx.
Qed.

Lemma NoDup_readdirSync (d : Path) (fs : FileSystem) : NoDup (readdirSync d fs).
Proof.
  apply NoDup_omap_inj; [|apply NoDup_fst_map_to_list].
  intros x y z ->%childName_Some ->%childName_Some. done.
Qed.

Lemma depth_bound (fs : FileSystem) (p : Path) :
  is_Some (fs !! p) → (length p ≤ depth fs)%nat.
Proof.
  intros [e He]. apply max_list_elem_of_le, list_elem_of_fmap.
  exists p. split; [done|]. apply list_elem_of_fmap. exists (p, e).
  split; [done|]. by apply elem_of_map_to_list.
Qed.

Lemma onTheWay_cons done n rest q :
  onTheWay done (n :: rest) q ↔ q = done ++ [n] ∨ onTheWay (done ++ [n]) rest q.
Proof.
  split.
  - intros (k & Hk & Hpre & ->). destruct k as [|x k]; [done|].
    pose proof (prefix_cons_inv_1 _ _ _ _ Hpre) as ->.
    apply prefix_cons_inv_2 in Hpre.
    destruct k as [|y k]; [by left|right].
    exists (y :: k). split; [done|]. split; [done|].
    by rewrite <- app_assoc.
  - intros [->|(k & Hk & Hpre & ->)].
    + exists [n]. split; [done|]. split; [|done].
      apply prefix_cons, prefix_nil.
    + exists (n :: k). split; [done|]. split; [by apply prefix_cons|].
      by rewrite <- app_assoc.
Qed.

Lemma not_onTheWay_self done todo : ¬ onTheWay done todo done.
Proof.
  intros (k & Hk & _ & Heq). apply Hk.
  rewrite <- (app_nil_r done) in Heq at 1. by apply app_inv_head in Heq.
Qed.

Lemma mkdirFrom_spec todo : ∀ done (fs : FileSystem),
  (∀ q e, onTheWay done todo q → fs !! q = Some e → e = DirEntry) →
  ∃ fs1, mkdirFrom done todo fs = Returned fs1 ∧
         (∀ q, onTheWay done todo q → fs1 !! q = Some DirEntry) ∧
         (∀ q, ¬ onTheWay done todo q → fs1 !! q = fs !! q).
Proof.
  induction todo as [|n rest IH]; intros done fs Hpre; simpl.
  - exists fs. split; [done|]. split; [|done].
    intros q (k & Hk & Hp%prefix_nil_inv & _). done.
  - destruct (fs !! (done ++ [n])) as [[c|]|] eqn:Hp.
    + exfalso. specialize (Hpre (done ++ [n]) (FileEntry c)).
      rewrite onTheWay_cons in Hpre. by specialize (Hpre (or_introl eq_refl) Hp).
    + destruct (IH (done ++ [n]) fs) as (fs1 & -> & Hon & Hoff).
      { intros q e Hq. apply Hpre. rewrite onTheWay_cons. by right. }
      exists fs1. split; [done|]. split.
      * intros q [->|Hq]%onTheWay_cons; [|by apply Hon].
        by rewrite Hoff by apply not_onTheWay_self.
      * intros q Hq. apply Hoff. intros ?. apply Hq. rewrite onTheWay_cons. by right.
    + destruct (IH (done ++ [n]) (<[done ++ [n] := DirEntry]> fs))
        as (fs1 & -> & Hon & Hoff).
      { intros q e Hq. destruct (decide (q = done ++ [n])) as [->|Hne].
        - rewrite lookup_insert_eq. congruence.
        - rewrite lookup_insert_ne by done. apply Hpre.
          rewrite onTheWay_cons. by right. }
      exists fs1. split; [done|]. split.
      * intros q [->|Hq]%onTheWay_cons; [|by apply Hon].
        rewrite Hoff by apply not_onTheWay_self. by rewrite lookup_insert_eq.
      * intros q Hq. rewrite Hoff.
        -- rewrite lookup_insert_ne; [done|]. intros <-. apply Hq.
           rewrite onTheWay_cons. by left.
        -- intros ?. apply Hq. rewrite onTheWay_cons. by right.
Qed.

Lemma prefix_snoc_same (a b : Path) n :
  a ++ [n] `prefix_of` b ++ [n] → a `prefix_of` b.
Proof.
  intros [k Hk]. destruct k as [|x k _] using rev_ind.
  - rewrite app_nil_r in Hk. by apply app_inj_tail in Hk as [-> _].
  - rewrite app_assoc in Hk. apply app_inj_tail in Hk as [-> _].
    rewrite <- app_assoc. by eexists.
Qed.

Lemma prefix_snoc_cases (q l : Path) n :
  q `prefix_of` l ++ [n] → q = l ++ [n] ∨ q `prefix_of` l.
Proof.
  intros [k Hk]. destruct k as [|x k _] using rev_ind.
  - left. by rewrite app_nil_r in Hk.
  - right. rewrite app_assoc in Hk. apply app_inj_tail in Hk as [-> _].
    by eexists.
Qed.

Lemma apart_child (src dest : Path) n :
  apart src dest → apart (src ++ [n]) (dest ++ [n]).
Proof. intros [H1 H2]. split; intros ?%prefix_snoc_same; done. Qed.

Lemma apart_below (src dest r q : Path) :
  apart src dest → dest `prefix_of` q → q ≠ src ++ r.
Proof.
  intros [H1 H2] Hq ->.
  destruct (prefix_weak_total dest src (src ++ r)); [done|by eexists|done..].
Qed.

Lemma apart_way (src dest r q : Path) :
  apart src dest → q `prefix_of` dest → q ≠ src ++ r.
Proof.
  intros [H1 H2] Hq ->. apply H1. etrans; [|done]. by eexists.
Qed.

Lemma nested_prefix (src : Path) (fs : FileSystem) (r r' : Path) :
  nested src fs → is_Some (fs !! (src ++ r ++ r')) → is_Some (fs !! (src ++ r)).
Proof.
  intros Hn. induction r' as [|x r' IH] using rev_ind.
  - by rewrite app_nil_r.
  - intros Hx. apply IH.
    replace (src ++ r ++ r' ++ [x]) with (src ++ (r ++ r') ++ [x]) in Hx
      by (by rewrite <- !app_assoc).
    rewrite (Hn (r ++ r') x Hx). by eexists.
Qed.

Lemma cons_middle_snoc {A} (l : list A) x r : l ++ x :: r = (l ++ [x]) ++ r.
Proof. by rewrite <- app_assoc. Qed.

Lemma child_prefix_same (dest : Path) (n n' : string) (r : Path) :
  dest ++ [n] `prefix_of` dest ++ n' :: r → n = n'.
Proof. intros H%prefix_app_inv. by apply prefix_cons_inv_1 in H. Qed.

Lemma copy_children (fuel : nat) (src dest : Path) (fs1 : FileSystem) :
  copySpec fuel →
  apart src dest → nested src fs1 →
  (∀ r, is_Some (fs1 !! (src ++ r)) → (length r < Datatypes.S fuel)%nat) →
  noClash src dest fs1 →
  (∀ q, q ≠ [] → q `prefix_of` dest → fs1 !! q = Some DirEntry) →
  ∀ names done f,
    NoDup names →
    (∀ n, n ∈ names → n ∉ done) →
    (∀ n, n ∈ names → is_Some (fs1 !! (src ++ [n]))) →
    childrenCopied src dest fs1 done f →
    ∃ fs',
      forEach (λ n, copyRecursive fuel (src ++ [n]) (dest ++ [n])) names f
        = Returned fs' ∧
      childrenCopied src dest fs1 (done ++ names) fs'.
Proof.
  intros IH Hapart Hnest Hfuel Hclash Hway names.
  assert (dest ≠ []) as Hdest.
  { intros ->. destruct Hapart as [_ H]. apply H, prefix_nil. }
  induction names as [|n names IHn]; intros done f Hnd Hfresh Hex [Hc1 Hc2]; simpl.
  { exists f. rewrite app_nil_r. done. }
  apply NoDup_cons in Hnd as [Hn Hnd].
  assert (n ∉ done) as Hndone by (apply Hfresh; left).
  assert (∀ r, f !! (src ++ r) = fs1 !! (src ++ r)) as Hsrc.
  { intros r. apply Hc2. intros n' r' _ Heq.
    apply (apart_below src dest r (dest ++ n' :: r')); [done|by eexists|done]. }
  assert (∀ r, f !! (dest ++ n :: r) = fs1 !! (dest ++ n :: r)) as Hdst.
  { intros r. apply Hc2. intros n' r' Hn' Heq.
    apply app_inv_head in Heq. by simplify_eq. }
  assert (∀ q, q `prefix_of` dest → f !! q = fs1 !! q) as Hpre.
  { intros q Hq. apply Hc2. intros n' r' _ ->. apply prefix_length in Hq.
    rewrite length_app in Hq. simpl in Hq. lia. }
  destruct (IH (src ++ [n]) (dest ++ [n]) f) as (f2 & Hrun & Hcp1 & Hcp2).
  - by apply apart_child.
  - rewrite Hsrc. apply Hex. left.
  - intros r x. rewrite <- !app_assoc. simpl. rewrite !Hsrc.
    apply (Hnest (n :: r) x).
  - intros r. rewrite <- app_assoc. simpl. rewrite Hsrc. intros Hr.
    specialize (Hfuel (n :: r) Hr). simpl in Hfuel. lia.
  - intros r e1 e2. rewrite <- !app_assoc. simpl. rewrite Hsrc, Hdst.
    apply (Hclash (n :: r)).
  - unfold reachable, isDirectoryAt. rewrite Hsrc.
    destruct (fs1 !! (src ++ [n])) as [[c|]|] eqn:Hn1.
    + unfold parent. rewrite length_app. simpl.
      replace (Nat.pred (length dest + 1)) with (length dest) by lia.
      rewrite take_app_length, Hpre by done. by apply Hway.
    + intros q e [->|Hq]%prefix_snoc_cases Hne He.
      * rewrite (Hdst []) in He.
        specialize (Hclash [n] DirEntry e Hn1 He). by destruct e.
      * rewrite Hpre, Hway in He by done. congruence.
    + destruct (Hex n) as [? ?]; [left|congruence].
  - rewrite Hrun.
    assert (∀ q, ¬ dest ++ [n] `prefix_of` q → q ≠ dest ++ [n] →
                 f2 !! q = f !! q) as Hkeep.
    { intros q Hq Hne. destruct (Hcp2 q Hq) as [Heq|(Hpq & Hq0 & Hnone & _)]; [done|].
      apply prefix_snoc_cases in Hpq as [->|Hpq]; [done|].
      rewrite Hpre, Hway in Hnone by done. done. }
    destruct (IHn (done ++ [n]) f2) as (fs' & Hrun' & Hfin); [done| | | |].
    + intros n' Hn' [Hin| ->%list_elem_of_singleton]%elem_of_app; [|done].
      apply (Hfresh n'); [by right|done].
    + intros n' Hn'. apply Hex. by right.
    + split.
      * intros n' r [Hin| ->%list_elem_of_singleton]%elem_of_app.
        -- rewrite <- Hc1 by done. apply Hkeep.
           ++ intros <-%child_prefix_same. done.
           ++ intros Heq. apply app_inv_head in Heq. by simplify_eq.
        -- rewrite cons_middle_snoc, Hcp1. rewrite <- !cons_middle_snoc.
           by rewrite Hsrc, Hdst.
      * intros q Hq. rewrite <- Hc2.
        -- apply Hkeep.
           ++ intros [k ->]. rewrite <- app_assoc in Hq. simpl in Hq.
              apply (Hq n k); [|done]. apply elem_of_app. right. left.
           ++ intros ->. apply (Hq n []); [|done]. apply elem_of_app. right. left.
        -- intros n' r Hn'. apply Hq. apply elem_of_app. by left.
    + exists fs'. split; [done|]. rewrite <- app_assoc in Hfin. exact Hfin.
Qed.

Lemma onTheWay_root (dest q : Path) :
  onTheWay [] dest q ↔ q ≠ [] ∧ q `prefix_of` dest.
Proof.
  split.
  - intros (k & Hk & Hp & ->). done.
  - intros [Hq Hp]. by exists q.
Qed.

Lemma copyRecursive_spec (fuel : nat) : copySpec fuel.
Proof.
  induction fuel as [|fuel IH];
    intros src dest fs Hapart Hsrc Hnest Hfuel Hclash Hreach.
  { specialize (Hfuel []). rewrite app_nil_r in Hfuel.
    specialize (Hfuel Hsrc). simpl in Hfuel. lia. }
  assert (dest ≠ []) as Hdest.
  { intros ->. destruct Hapart as [_ H]. apply H, prefix_nil. }
  simpl. unfold reachable in Hreach.
  destruct (isDirectoryAt src fs) eqn:Hdir.
  - (* a directory *)
    assert (fs !! src = Some DirEntry) as Hsrcdir.
    { unfold isDirectoryAt in Hdir. by destruct (fs !! src) as [[|]|]. }
    destruct (mkdirFrom_spec dest [] fs) as (fs1 & Hmk & Hon & Hoff).
    { intros q e [Hq Hp]%onTheWay_root He. by eapply Hreach. }
    unfold mkdirSync. rewrite Hmk.
    assert (∀ q e, fs !! q = Some e → fs1 !! q = Some e) as Hgrow.
    { intros q e He. destruct (decide (q ≠ [] ∧ q `prefix_of` dest)) as [[? ?]|Hno].
      - rewrite Hon by (by apply onTheWay_root).
        f_equal. symmetry. by eapply Hreach.
      - rewrite Hoff; [done|]. by rewrite onTheWay_root. }
    assert (∀ q, ¬ q `prefix_of` dest → fs1 !! q = fs !! q) as Hsame.
    { intros q Hq. apply Hoff. rewrite onTheWay_root. tauto. }
    assert (∀ r, fs1 !! (src ++ r) = fs !! (src ++ r)) as Hs1.
    { intros r. apply Hsame. intros Hq. by eapply apart_way. }
    assert (∀ n r, fs1 !! (dest ++ n :: r) = fs !! (dest ++ n :: r)) as Hd1.
    { intros n r. apply Hsame. intros Hq%prefix_length.
      rewrite length_app in Hq. simpl in Hq. lia. }
    destruct (copy_children fuel src dest fs1 IH Hapart) with
      (names := readdirSync src fs1) (done := @nil string) (f := fs1)
      as (fs' & Hrun & Hc1 & Hc2).
    + intros r n. rewrite !Hs1. apply Hnest.
    + intros r. rewrite Hs1. apply Hfuel.
    + intros r e1 e2. rewrite Hs1. destruct r as [|n r].
      * rewrite !app_nil_r, Hsrcdir, Hon by (by apply onTheWay_root).
        by intros [= <-] [= <-].
      * rewrite Hd1. apply Hclash.
    + intros q Hq Hp. apply Hon. by apply onTheWay_root.
    + apply NoDup_readdirSync.
    + intros n _. apply not_elem_of_nil.
    + intros n Hn. by apply elem_of_readdirSync.
    + split; [|done]. intros n r Hn. by apply elem_of_nil in Hn.
    + exists fs'. split; [done|]. split.
      * intros [|n r].
        -- rewrite !app_nil_r, Hsrcdir, Hc2.
           ++ apply Hon. by apply onTheWay_root.
           ++ intros n r _ Heq. apply (f_equal length) in Heq.
              rewrite length_app in Heq. simpl in Heq. lia.
        -- destruct (decide (n ∈ readdirSync src fs1)) as [Hn|Hn].
           ++ by rewrite Hc1, Hs1, Hd1.
           ++ rewrite Hc2.
              ** rewrite Hd1.
                 destruct (fs !! (src ++ n :: r)) as [e|] eqn:He; [|done].
                 exfalso. apply Hn, elem_of_readdirSync. rewrite Hs1.
                 apply (nested_prefix src fs [n] r); [done|].
                 simpl. by eexists.
              ** intros n' r' Hn' Heq. apply app_inv_head in Heq.
                 by simplify_eq.
      * intros q Hq. rewrite Hc2.
        -- destruct (decide (q ≠ [] ∧ q `prefix_of` dest)) as [[? ?]|Hno].
           ++ destruct (fs !! q) as [e|] eqn:He.
              ** left. by apply Hgrow.
              ** right. split; [done|]. split; [done|]. split; [done|].
                 apply Hon. by apply onTheWay_root.
           ++ left. apply Hoff. by rewrite onTheWay_root.
        -- intros n r _ ->. apply Hq. by eexists.
  - (* a regular file *)
    destruct Hsrc as [e He]. unfold isDirectoryAt in Hdir. rewrite He in Hdir.
    destruct e as [content|]; [|done].
    unfold copyFileSync. rewrite He.
    assert (fs !! dest ≠ Some DirEntry) as Hd.
    { intros Hd. specialize (Hclash [] (FileEntry content) DirEntry).
      rewrite !app_nil_r in Hclash. by specialize (Hclash He Hd). }
    rewrite Hreach.
    exists (<[dest := FileEntry content]> fs). split.
    { by destruct (fs !! dest) as [[|]|]. }
    split.
    + intros [|n r].
      * by rewrite !app_nil_r, He, lookup_insert_eq.
      * rewrite lookup_insert_ne.
        -- destruct (fs !! (src ++ n :: r)) as [e|] eqn:Hr; [|done].
           exfalso.
           assert (is_Some (fs !! (src ++ [n]))) as Hn1.
           { apply (nested_prefix src fs [n] r Hnest). simpl. by eexists. }
           pose proof (Hnest [] n Hn1) as Hroot.
           rewrite app_nil_r in Hroot. congruence.
        -- intros Heq. apply (f_equal length) in Heq.
           rewrite length_app in Heq. simpl in Heq. lia.
    + intros q Hq. left. rewrite lookup_insert_ne; [done|].
      intros <-. by apply Hq.
Qed.

Lemma parent_snoc (l : Path) (n : string) : parent (l ++ [n]) = l.
Proof.
  unfold parent. rewrite length_app. simpl.
  replace (Nat.pred (length l + 1)) with (length l) by lia.
  by rewrite take_app_length.
Qed.

Lemma isDirectoryAt_true (p : Path) (fs : FileSystem) :
  isDirectoryAt p fs = true → fs !! p = Some DirEntry.
Proof. unfold isDirectoryAt. by destruct (fs !! p) as [[|]|]. Qed.

Lemma keys_of_file_system (fs : FileSystem) (p : Path) (e : Entry) :
  fs !! p = Some e → In p (map_to_list fs).*1.
Proof.
  intros He. apply list_elem_of_In, list_elem_of_fmap. exists (p, e).
  split; [done|]. by apply elem_of_map_to_list.
Qed.

Lemma isTreeb_sound (src : Path) (fs : FileSystem) :
  isTreeb src fs = true → isTree src fs.
Proof.
  unfold isTreeb. intros [Hsrc Hall]%andb_prop. split.
  - apply (bool_decide_unpack _). by rewrite Hsrc.
  - intros r n [e He]. rewrite forallb_forall in Hall.
    specialize (Hall _ (keys_of_file_system _ _ _ He)).
    rewrite (proj2 (stripPrefix_Some src (src ++ r ++ [n]) (r ++ [n])) eq_refl)
      in Hall.
    rewrite app_assoc, parent_snoc in Hall.
    apply isDirectoryAt_true. by destruct r.
Qed.

Lemma noClashb_sound (src dest : Path) (fs : FileSystem) :
  noClashb src dest fs = true → noClash src dest fs.
Proof.
  unfold noClashb. rewrite forallb_forall. intros Hall r e1 e2 H1 H2.
  specialize (Hall (src ++ r, e1)). simpl in Hall.
  rewrite (proj2 (stripPrefix_Some src (src ++ r) r) eq_refl), H2 in Hall.
  apply Hall, list_elem_of_In. by apply elem_of_map_to_list.
Qed.

Lemma reachableb_sound (src dest : Path) (fs : FileSystem) :
  reachableb src dest fs = true → reachable src dest fs.
Proof.
  unfold reachableb, reachable. destruct (isDirectoryAt src fs).
  - rewrite forallb_forall. intros Hall q e [k ->] Hq He.
    specialize (Hall (length q)). rewrite take_app_length, He in Hall.
    destruct e; [|done]. discriminate Hall.
    apply in_seq. rewrite length_app. destruct q; [done|simpl; lia].
  - apply isDirectoryAt_true.
Qed.

(** C8 (as amended).  When the source is a tree, the destination lies apart
    from it, can be reached, and holds no regular file where the source has
    a directory nor a directory where the source has a file, the copy
    returns; every entry of the source is then at the same relative path
    below the destination, with the same content, the entries of the
    destination that the source does not have are left as they were (so a
    destination that did not exist is identical to the source), and
    outside the destination only the directories leading to it are
    created. *)
Theorem copy_into_compatible_destination (src dest : Path)
  (fs : FileSystem) :
  isTree src fs → apart src dest → noClash src dest fs →
  reachable src dest fs →
  ∃ fs',
    copyRecursiveSync src dest fs = Returned fs' ∧
    (∀ r e, fs !! (src ++ r) = Some e → fs' !! (dest ++ r) = Some e) ∧
    (∀ r, fs !! (src ++ r) = None → fs' !! (dest ++ r) = fs !! (dest ++ r)) ∧
    ((∀ r, fs !! (dest ++ r) = None) →
     ∀ r, fs' !! (dest ++ r) = fs !! (src ++ r)) ∧
    (∀ q, ¬ dest `prefix_of` q →
          fs' !! q = fs !! q ∨
          (q `prefix_of` dest ∧ q ≠ [] ∧ fs !! q = None ∧
           fs' !! q = Some DirEntry)).
Proof.
  intros [Hsrc Hnest] Hapart Hclash Hreach.
  destruct (copyRecursive_spec (Datatypes.S (depth fs)) src dest fs)
    as (fs' & Hrun & Hin & Hout); [done..| |done|done|].
  { intros r Hr. apply depth_bound in Hr. rewrite length_app in Hr. lia. }
  exists fs'. split; [done|]. split; [|split; [|split; [|done]]].
  - intros r e He. by rewrite Hin, He.
  - intros r He. by rewrite Hin, He.
  - intros Hempty r. rewrite Hin, Hempty. by destruct (fs !! (src ++ r)).
Qed.

Lemma apart_package_assets : apart ["package"] ["assets"].
Proof. split; intros [k Hk]; discriminate Hk. Qed.

Lemma copy_into_compatible_destination_witness :
  isTree ["package"] sampleFs ∧ apart ["package"] ["assets"] ∧
  noClash ["package"] ["assets"] sampleFs ∧
  reachable ["package"] ["assets"] sampleFs ∧
  ∃ fs',
    copyRecursiveSync ["package"] ["assets"] sampleFs = Returned fs' ∧
    (∀ r e, sampleFs !! (["package"] ++ r) = Some e →
            fs' !! (["assets"] ++ r) = Some e) ∧
    (∀ r, sampleFs !! (["package"] ++ r) = None →
          fs' !! (["assets"] ++ r) = sampleFs !! (["assets"] ++ r)) ∧
    ((∀ r, sampleFs !! (["assets"] ++ r) = None) →
     ∀ r, fs' !! (["assets"] ++ r) = sampleFs !! (["package"] ++ r)) ∧
    (∀ q, ¬ ["assets"] `prefix_of` q →
          fs' !! q = sampleFs !! q ∨
          (q `prefix_of` ["assets"] ∧ q ≠ [] ∧ sampleFs !! q = None ∧
           fs' !! q = Some DirEntry)).
Proof.
  assert (isTree ["package"] sampleFs) as H1
    by (apply isTreeb_sound; vm_compute; reflexivity).
  assert (noClash ["package"] ["assets"] sampleFs) as H2
    by (apply noClashb_sound; vm_compute; reflexivity).
  assert (reachable ["package"] ["assets"] sampleFs) as H3
    by (apply reachableb_sound; vm_compute; reflexivity).
  split; [exact H1|]. split; [exact apart_package_assets|].
  split; [exact H2|]. split; [exact H3|].
  exact (copy_into_compatible_destination ["package"] ["assets"] sampleFs
           H1 apart_package_assets H2 H3).
Defined.

(** C8 as stated fails where the destination is a regular file:
    [mkdirSync] throws and nothing is copied. *)
Lemma copy_onto_regular_file_throws :
  isTree ["package"] clashFs ∧
  copyRecursiveSync ["package"] ["assets"] clashFs = Thrown "EEXIST" ∧
  ¬ ∃ fs',
      copyRecursiveSync ["package"] ["assets"] clashFs = Returned fs' ∧
      ∀ r e, clashFs !! (["package"] ++ r) = Some e →
             fs' !! (["assets"] ++ r) = Some e.
Proof.
  assert (copyRecursiveSync ["package"] ["assets"] clashFs = Thrown "EEXIST")
    as Hrun by (vm_compute; reflexivity).
  split; [apply isTreeb_sound; vm_compute; reflexivity|].
  split; [exact Hrun|]. intros (fs' & Hret & _). congruence.
Qed.

(** The merge into an existing destination, on the sample file system:
    [index.js] is overwritten, [README.md] stays. *)
Example copy_sample :
  match copyRecursiveSync ["package"] ["assets"] sampleFs with
  | Returned fs' =>
      fs' !! ["assets"; "index.js"] = Some (FileEntry [Byte.x61; Byte.x62]) ∧
      fs' !! ["assets"; "dist"] = Some DirEntry ∧
      fs' !! ["assets"; "dist"; "index.mjs"] = Some (FileEntry [Byte.x63]) ∧
      fs' !! ["assets"; "README.md"] = Some (FileEntry [Byte.x64]) ∧
      size fs' = 10%nat
  | _ => False
  end.
Proof. vm_compute. repeat split. Qed.

(** ** The publish sequencer *)

Section PublishProofs.
Context {World Err : Type}.
Variable exec : Command -> World -> ExecResult Err * World.
Variable fetchHead : string -> World -> (Err + Z) * World.
Variable prereleaseTag : string -> string.
Variable fileSystem : World -> FileSystem.
Variable withFileSystem : FileSystem -> World -> World.

#[local] Abbreviation AStep := (@Step World Err).
#[local] Abbreviation publishOp := (publishOperation exec prereleaseTag).
#[local] Abbreviation availabilityOp :=
  (availabilityOperation (Err:=Err) fetchHead).
#[local] Abbreviation publishOne :=
  (publishPackage exec fetchHead prereleaseTag fileSystem withFileSystem).
#[local] Abbreviation publishAll :=
  (publishLoop exec fetchHead prereleaseTag fileSystem withFileSystem).
#[local] Abbreviation run := (execStep exec).
#[local] Abbreviation firstSteps :=
  (beforeDownstream exec fetchHead prereleaseTag fileSystem withFileSystem).

Lemma sequence_cons (a : AStep) (l : list AStep) (st : RunState World) :
  sequence (a :: l) st
  = match a st with
    | (Resolved, st') => sequence l st'
    | (Rejected e, st') => (Rejected e, st')
    end.
Proof. done. Qed.

Lemma sequence_app (l1 l2 : list AStep) (st : RunState World) :
  sequence (l1 ++ l2) st
  = match sequence l1 st with
    | (Resolved, st') => sequence l2 st'
    | (Rejected e, st') => (Rejected e, st')
    end.
Proof.
  revert st. induction l1 as [|a l1 IH]; intros st; [done|].
  simpl. unfold andThen. destruct (a st) as [[|e] st']; [apply IH|done].
Qed.

Lemma sequence_rejected (l1 l2 : list AStep) (st st' : RunState World) e :
  sequence l1 st = (Rejected e, st') → sequence (l1 ++ l2) st = (Rejected e, st').
Proof. intros H. by rewrite sequence_app, H. Qed.

Lemma ran_execStep (c : Command) (st : RunState World) :
  ran (run c st).2 = ran st ++ [c].
Proof.
  unfold execStep. destruct (exec c (world st)) as [r w].
  by destruct (failure r).
Qed.

Lemma cleanup_runs (cmds : list Command) : ∀ st : RunState World,
  ∃ st', sequence ((λ c, ignoringFailure (run c)) <$> cmds) st
         = (Resolved, st') ∧
         ran st' = ran st ++ cmds.
Proof.
  induction cmds as [|c cmds IH]; intros st.
  - exists st. by rewrite app_nil_r.
  - rewrite fmap_cons, sequence_cons. unfold ignoringFailure at 1.
    destruct (IH (run c st).2) as (st' & -> & Hran).
    exists st'. split; [done|].
    by rewrite Hran, ran_execStep, <- app_assoc.
Qed.

Lemma commands_ran (cmds : list Command) : ∀ st st' : RunState World,
  sequence (run <$> cmds) st = (Resolved, st') →
  ran st' = ran st ++ cmds.
Proof.
  induction cmds as [|c cmds IH]; intros st st'.
  - intros [= <-]. by rewrite app_nil_r.
  - rewrite fmap_cons, sequence_cons. pose proof (ran_execStep c st) as Hc.
    destruct (run c st) as [[|e] st1]; [|done].
    intros H%IH. simpl in Hc. by rewrite H, Hc, <- app_assoc.
Qed.

Lemma execStep_failure (c : Command) (st : RunState World) e :
  failure (exec c (world st)).1 = Some e →
  run c st
  = (Rejected (External e),
     {| world := (exec c (world st)).2; ran := ran st ++ [c] |}).
Proof.
  unfold execStep. destruct (exec c (world st)) as [r w]. simpl.
  by intros ->.
Qed.

Lemma publishPackage_eq (packageDetails : PackageDetails) :
  publishOne packageDetails
  = sequence
      ((firstSteps packageDetails
        ++ (run <$> downstream packageDetails))
       ++ ((λ c, ignoringFailure (run c)) <$> cleanup packageDetails)).
Proof.
  unfold publishPackage, firstSteps.
  by rewrite <- !app_assoc.
Qed.


(** C5.  When the publish command fails on some attempt and the output it
    gave contains "You cannot publish over the previously published
    versions", the operation resolves, so [retry] resolves and that attempt
    is the last. *)
Theorem republish_error_tolerated (packageDetails : PackageDetails)
  (st : RunState World) (N : nat) (e : Err) :
  let op := publishOp packageDetails in
  let stN := stateBefore op publishOpts N st in
  (1 ≤ N ≤ 5)%nat →
  (∀ n, (1 ≤ n < N)%nat → isRejected (invocation op publishOpts n st).1 = true) →
  failure (exec (yarnPublish prereleaseTag packageDetails) (world stN)).1
    = Some e →
  includes alreadyPublished
    (gathered
       (lines (exec (yarnPublish prereleaseTag packageDetails) (world stN)).1))
    = true →
  (∀ args, (op args stN).1 = Resolved) ∧
  settled (retry op publishOpts st) = Resolved ∧
  invocations (retry op publishOpts st) = N.
Proof.
  intros op stN HN Hrej Hfail Hout.
  assert (∀ args, (op args stN).1 = Resolved) as Hop.
  { intros args. unfold op, publishOperation.
    destruct (exec _ (world stN)) as [r w]. simpl in *.
    by rewrite Hfail, Hout. }
  split; [done|].
  destruct (retry_first_success op publishOpts st N) as (? & ? & _);
    [lia|simpl; lia|done| |done].
  rewrite invocation_stateBefore by lia. apply Hop.
Qed.

Lemma availabilityOperation_status (packageDetails : PackageDetails)
  (args : RetryArgs) (st : RunState World) (status : Z) :
  (fetchHead (tarballUrl packageDetails) (world st)).1 = inr status →
  (availabilityOp packageDetails args st).1
  = if status >=? 400 then Rejected (PackageNotFound status) else Resolved.
Proof.
  unfold availabilityOperation.
  destruct (fetchHead _ (world st)) as [res w]. simpl. intros ->.
  by destruct (status >=? 400).
Qed.

(** C6.  The availability check is rejected on a status of 400 or more and
    resolves on a smaller one.  With nine answers 404 and then 200 the step
    resolves after 10 invocations and 9 waits of 3000 ms; with ten answers
    404 it rejects after 10 invocations, and the package and the whole loop
    reject with it.  A publish command that keeps failing is run 5 times,
    with 4 waits of 10000 ms. *)
Theorem availability_polling (packageDetails : PackageDetails) :
  let check := availabilityOp packageDetails in
  let statusAt (n : nat) (st : RunState World) :=
    (fetchHead (tarballUrl packageDetails)
       (world (stateBefore check availabilityOpts n st))).1 in
  (∀ args st status,
     (fetchHead (tarballUrl packageDetails) (world st)).1 = inr status →
     (400 ≤ status → (check args st).1 = Rejected (PackageNotFound status)) ∧
     (status < 400 → (check args st).1 = Resolved)) ∧
  (∀ st,
     (∀ n, (1 ≤ n ≤ 9)%nat → statusAt n st = inr 404) →
     statusAt 10%nat st = inr 200 →
     settled (retry check availabilityOpts st) = Resolved ∧
     invocations (retry check availabilityOpts st) = 10%nat ∧
     waits (events (retry check availabilityOpts st)) = replicate 9 3000) ∧
  (∀ st,
     (∀ n, (1 ≤ n ≤ 10)%nat → statusAt n st = inr 404) →
     settled (retry check availabilityOpts st)
       = Rejected (PackageNotFound 404) ∧
     invocations (retry check availabilityOpts st) = 10%nat ∧
     waits (events (retry check availabilityOpts st)) = replicate 9 3000 ∧
     ∀ st0 rest,
       retryStep (publishOp packageDetails) publishOpts st0
         = (Resolved, st) →
       (publishOne packageDetails st0).1
         = Rejected (PackageNotFound 404) ∧
       (publishAll (packageDetails :: rest) st0).1
         = Rejected (PackageNotFound 404)) ∧
  (∀ st,
     (∀ n, (1 ≤ n ≤ 5)%nat →
           isRejected
             (invocation (publishOp packageDetails) publishOpts n st).1
           = true) →
     isRejected
       (settled (retry (publishOp packageDetails) publishOpts st))
       = true ∧
     invocations (retry (publishOp packageDetails) publishOpts st)
       = 5%nat ∧
     waits (events (retry (publishOp packageDetails) publishOpts st))
       = replicate 4 10000).
Proof.
  intros check statusAt.
  assert (∀ n st status, (1 ≤ n)%nat → statusAt n st = inr status →
            (invocation check availabilityOpts n st).1
            = if status >=? 400 then Rejected (PackageNotFound status)
              else Resolved) as Hinv.
  { intros n st status Hn Hst. rewrite invocation_stateBefore by done.
    by apply availabilityOperation_status. }
  split; [|split; [|split]].
  - intros args st status Hst. unfold check.
    rewrite (availabilityOperation_status _ args st status Hst).
    split; intros Hs.
    + by rewrite (proj2 (Z.geb_le status 400)) by done.
    + destruct (status >=? 400) eqn:Hge; [|done].
      apply Z.geb_le in Hge. lia.
  - intros st H404 H200.
    destruct (retry_first_success check availabilityOpts st 10)
      as (? & ? & _ & ?); [lia|simpl; lia| | |done].
    + intros n Hn. by rewrite (Hinv n st 404) by (try apply H404; lia).
    + by rewrite (Hinv 10%nat st 200) by (done || lia).
  - intros st H404.
    destruct (retry_all_fail check availabilityOpts st) as (Hcount & Hlast & Hw);
      [simpl; lia| |].
    { intros n Hn Hle. simpl in Hle.
      by rewrite (Hinv n st 404) by (try apply H404; lia). }
    simpl in Hcount, Hlast, Hw.
    assert (settled (retry check availabilityOpts st)
            = Rejected (PackageNotFound 404)) as Hset.
    { change (settled (retry check availabilityOpts st))
        with ((settled (retry check availabilityOpts st),
               final (retry check availabilityOpts st)).1).
      rewrite Hlast. change (Z.to_nat 10) with 10%nat.
      by rewrite (Hinv 10%nat st 404) by (try apply H404; lia). }
    split; [done|]. split; [lia|]. split; [done|].
    intros st0 rest Hpub.
    assert ((publishOne packageDetails st0).1
            = Rejected (PackageNotFound 404)) as Hrun.
    { unfold publishPackage. cbn [app].
      rewrite sequence_cons, Hpub, sequence_cons.
      unfold retryStep at 1. fold check. by rewrite Hset. }
    split; [done|]. unfold publishLoop.
    rewrite fmap_cons, sequence_cons.
    destruct (publishOne packageDetails st0) as [[|e] st']; simpl in *;
      congruence.
  - intros st Hfail.
    destruct (retry_all_fail (publishOp packageDetails) publishOpts st)
      as (Hcount & Hlast & Hw); [simpl; lia| |].
    { intros n Hn Hle. simpl in Hle. apply Hfail. lia. }
    simpl in Hcount, Hw. split; [|split; [lia|done]].
    change (settled (retry (publishOp packageDetails) publishOpts st))
      with ((settled (retry (publishOp packageDetails) publishOpts st),
             final (retry (publishOp packageDetails) publishOpts st)).1).
    rewrite Hlast. apply Hfail. simpl. lia.
Qed.

End PublishProofs.


(** When every step succeeds the working directory is left clean. *)
Example cleanup_when_all_succeeds :
  let out := simPublishPackage slowRegistry simStart in
  out.1 = Resolved ∧
  map_to_list (simFs (world out.2)) = [([], DirEntry)] ∧
  drop 10 (ran out.2) = cleanup simPackage.
Proof. vm_compute. repeat split. Qed.


Lemma republish_error_tolerated_witness :
  let op := publishOperation (simExec alreadyThere) simTag simPackage in
  let result := (simExec alreadyThere (yarnPublish simTag simPackage)
                   (world simStart)).1 in
  (1 ≤ 1 ≤ 5)%nat ∧
  failure result = Some "exit code 1" ∧
  includes alreadyPublished (gathered (lines result)) = true ∧
  (∀ args, (op args simStart).1 = Resolved) ∧
  settled (retry op publishOpts simStart) = Resolved ∧
  invocations (retry op publishOpts simStart) = 1%nat.
Proof.
  intros op result.
  assert (failure result = Some "exit code 1") as H1 by reflexivity.
  assert (includes alreadyPublished (gathered (lines result)) = true) as H2
    by (vm_compute; reflexivity).
  split; [lia|]. split; [exact H1|]. split; [exact H2|].
  apply (republish_error_tolerated (simExec alreadyThere) simTag simPackage
           simStart 1%nat "exit code 1"); [lia| |exact H1|exact H2].
  intros n Hn. lia.
Defined.

Lemma availability_polling_witness :
  let check := availabilityOperation (Err:=string) (simFetch slowRegistry)
                 simPackage in
  let check' := availabilityOperation (Err:=string) (simFetch deadRegistry)
                  simPackage in
  (settled (retry check availabilityOpts simStart) = Resolved ∧
   invocations (retry check availabilityOpts simStart) = 10%nat ∧
   waits (events (retry check availabilityOpts simStart))
     = replicate 9 3000) ∧
  (settled (retry check' availabilityOpts simStart)
     = Rejected (PackageNotFound 404) ∧
   invocations (retry check' availabilityOpts simStart) = 10%nat).
Proof.
  intros check check'. split.
  - pose proof (availability_polling (simExec slowRegistry)
                  (simFetch slowRegistry) simTag simFs simWithFs simPackage)
      as H.
    cbv zeta in H. destruct H as (_ & H & _). apply (H simStart).
    + intros n Hn.
      do 10 (destruct n as [|n]; [try lia; try (vm_compute; reflexivity)|]).
      lia.
    + vm_compute. reflexivity.
  - pose proof (availability_polling (simExec deadRegistry)
                  (simFetch deadRegistry) simTag simFs simWithFs simPackage)
      as H.
    cbv zeta in H. destruct H as (_ & _ & H & _).
    destruct (H simStart) as (Hset & Hcount & _).
    + intros n Hn.
      do 11 (destruct n as [|n]; [try lia; try (vm_compute; reflexivity)|]).
      lia.
    + split; [exact Hset|exact Hcount].
Defined.

(** The scenarios of the specification, run on the simulated registry. *)
Example polling_nine_then_available :
  let run := retry (availabilityOperation (Err:=string)
                      (simFetch slowRegistry) simPackage)
               availabilityOpts simStart in
  settled run = Resolved ∧ invocations run = 10%nat ∧
  waits (events run) = replicate 9 3000.
Proof. vm_compute. repeat split. Qed.

Example polling_never_available :
  (simPublishPackage deadRegistry simStart).1
  = Rejected (PackageNotFound 404).
Proof. vm_compute. reflexivity. Qed.

Example republish_is_success :
  let run := retry (publishOperation (simExec alreadyThere) simTag simPackage)
               publishOpts simStart in
  settled run = Resolved ∧ invocations run = 1%nat ∧ waits (events run) = [].
Proof. vm_compute. repeat split. Qed.

(** ** More on the retry engine *)

Section RetryMore.
Context {S E : Type}.
Variable fn : RetryArgs -> S -> Settled E * S.
Variable opts : RetryOpts.

Lemma attemptLoop_interleaved (n : nat) :
  ∀ a s, (Z.to_nat (numAttempts opts - a) ≤ n)%nat →
         events (attemptLoop fn opts a s)
         = interleave (delay opts) (calls (events (attemptLoop fn opts a s))).
Proof.
  induction n as [|n IH]; intros a s Hn; rewrite attemptLoop_eq;
    destruct (fn (argsAt opts a) s) as [[|err] s1]; [done| |done|].
  all: destruct (Z_ge_dec (a + 1) (numAttempts opts)) as [Hge|Hlt];
    [done|try lia].
  cbn [events].
  change (calls (Invoked ?x :: Waited ?d :: ?tr)) with (x :: calls tr).
  pose proof (IH (a + 1) s1 ltac:(lia)) as Hev.
  destruct (attemptLoop_shape fn opts n (a + 1) s1 ltac:(lia)) as [m Hm].
  pose proof (shape_calls _ _ _ _ _ _ Hm) as Hc.
  destruct (calls (events (attemptLoop fn opts (a + 1) s1))) as [|c cs];
    [discriminate Hc|].
  rewrite Hev. reflexivity.
Qed.

(** X1.  What [retry] does is a call, then a wait of [delay] and a call
    for every further attempt: the waits all last [delay], there is one
    between each two consecutive calls and none after the last call. *)
Theorem retry_waits_between_calls (s : S) :
  events (retry fn opts s)
    = interleave (delay opts) (calls (events (retry fn opts s))) ∧
  waits (events (retry fn opts s))
    = replicate (invocations (retry fn opts s) - 1) (delay opts).
Proof.
  split.
  - by apply (attemptLoop_interleaved (Z.to_nat (numAttempts opts - 0))).
  - destruct (retry_shape fn opts s) as [m Hm].
    rewrite (invocations_shape _ _ _ _ _ _ Hm), (shape_waits _ _ _ _ _ _ Hm).
    f_equal. lia.
Qed.

(** X2.  For every integer [numAttempts], [retry] invokes the operation at
    least once and at most [max 1 numAttempts] times; it settles as the
    last invocation did, every earlier invocation having been rejected;
    and it rejects only when the budget is used up. *)
Theorem retry_gives_up_only_when_exhausted (s : S) :
  let run := retry fn opts s in
  (1 ≤ invocations run ≤ attemptBudget opts)%nat ∧
  (settled run, final run) = invocation fn opts (invocations run) s ∧
  (∀ n, (1 ≤ n < invocations run)%nat →
        isRejected (invocation fn opts n s).1 = true) ∧
  (isRejected (settled run) = true → invocations run = attemptBudget opts).
Proof.
  intros run. destruct (retry_shape fn opts s) as [m Hm]. unfold run.
  rewrite (invocations_shape _ _ _ _ _ _ Hm). unfold attemptBudget.
  pose proof (shape_continued _ _ _ _ _ _ Hm) as Hcont.
  assert (Z.of_nat (Datatypes.S m) ≤ Z.max 1 (numAttempts opts)) as Hle.
  { destruct (decide (m = 0%nat)) as [->|Hm0]; [lia|].
    specialize (Hcont Hm0). lia. }
  split; [lia|]. split; [apply (shape_last _ _ _ _ _ _ Hm)|]. split.
  - intros n Hn. unfold invocation. apply (shape_rejected _ _ _ _ _ _ Hm). lia.
  - intros Hrej. pose proof (shape_exhausted _ _ _ _ _ _ Hm Hrej). lia.
Qed.

(** X3.  [retry] resolves exactly when one of the first [max 1 numAttempts]
    invocations of the operation resolves. *)
Theorem retry_resolves_iff_an_attempt_does (s : S) :
  settled (retry fn opts s) = Resolved ↔
  ∃ n, (1 ≤ n ≤ attemptBudget opts)%nat ∧
       (invocation fn opts n s).1 = Resolved.
Proof.
  destruct (retry_shape fn opts s) as [m Hm].
  pose proof (shape_last _ _ _ _ _ _ Hm) as Hlast.
  pose proof (shape_continued _ _ _ _ _ _ Hm) as Hcont.
  assert ((invocation fn opts (Datatypes.S m) s).1
          = settled (retry fn opts s)) as Hset.
  { unfold invocation. simpl. by rewrite <- Hlast. }
  assert (Z.of_nat (Datatypes.S m) ≤ Z.max 1 (numAttempts opts)) as Hle.
  { destruct (decide (m = 0%nat)) as [->|Hm0]; [lia|].
    specialize (Hcont Hm0). lia. }
  unfold attemptBudget. split.
  - intros Hres. exists (Datatypes.S m). split; [lia|]. by rewrite Hset.
  - intros (n & Hn & Hres).
    destruct (settled (retry fn opts s)) as [|err] eqn:Hs; [done|].
    exfalso. pose proof (shape_exhausted _ _ _ _ _ _ Hm) as Hex.
    rewrite Hs in Hex. specialize (Hex eq_refl).
    destruct (decide (n = Datatypes.S m)) as [->|Hne].
    + rewrite Hset in Hres. done.
    + pose proof (shape_rejected _ _ _ _ _ _ Hm (Nat.pred n) ltac:(lia)) as Hr.
      unfold invocation in Hres. rewrite Hres in Hr. done.
Qed.

End RetryMore.

(** ** More on the topological sorter *)

Lemma getPackage_own (packages : Registry) (k : string) (pd : PackageDetails) :
  NoDup (keys packages) → (k, pd) ∈ packages →
  getPackage packages k = Some pd.
Proof.
  unfold keys. induction packages as [|[k' pd'] rest IH]; simpl.
  - intros _ H. by apply elem_of_nil in H.
  - intros [Hk Hnd]%NoDup_cons [Heq|Hin]%elem_of_cons.
    + simplify_eq. by rewrite decide_True.
    + rewrite decide_False; [by apply IH|].
      intros ->. apply Hk, list_elem_of_fmap. by exists (k, pd).
Qed.

Lemma forEach_visit_marked (packages : Registry) (fuel : nat)
  (mk : string → list string) (l : list string) (st : SortState) :
  (∀ d, d ∈ l → d ∈ visited st) →
  forEach (λ d, visit packages (Datatypes.S fuel) d (mk d)) l st = Returned st.
Proof.
  induction l as [|d l IH]; intros Hl; [done|].
  cbn [forEach visit]. rewrite decide_True by (apply Hl; left).
  apply IH. intros d' Hd'. apply Hl. by right.
Qed.

Lemma sort_ordered_loop (packages : Registry) (fuel : nat) :
  NoDup (keys packages) →
  ∀ rest done st,
    packages = done ++ rest →
    (∀ i k pd d, packages !! i = Some (k, pd) → d ∈ localDeps pd →
                 d ∈ keys (take i packages)) →
    sorted st = done.*2 →
    visited st = list_to_set (keys done) →
    ∃ st', forEach (λ k, visit packages (Datatypes.S (Datatypes.S fuel)) k [k])
             (keys rest) st = Returned st' ∧
           sorted st' = packages.*2.
Proof.
  intros Hnd rest. induction rest as [|[k pd] rest IH];
    intros done st Hsplit Hdeps Hsorted Hvisited.
  - exists st. split; [done|]. by rewrite Hsorted, Hsplit, app_nil_r.
  - unfold keys. rewrite fmap_cons. cbn [forEach visit fst].
    assert (k ∉ keys done) as Hk.
    { rewrite Hsplit in Hnd. unfold keys in Hnd. rewrite fmap_app in Hnd.
      apply NoDup_app in Hnd as (_ & Hnd & _). intros Hin.
      apply (Hnd k Hin). rewrite fmap_cons. left. }
    rewrite decide_False by (rewrite Hvisited; set_solver).
    rewrite (getPackage_own packages k pd Hnd)
      by (rewrite Hsplit; set_solver).
    rewrite (forEach_visit_marked packages fuel (λ dep, [k] ++ [dep])).
    + destruct (IH (done ++ [(k, pd)])
                  {| sorted := sorted st ++ [pd];
                     visited := {[k]} ∪ visited st |})
        as (st' & Hrun & Hres).
      * by rewrite <- app_assoc.
      * done.
      * simpl. by rewrite Hsorted, fmap_app.
      * simpl. unfold keys. rewrite Hvisited, fmap_app, list_to_set_app_L.
        simpl. set_solver.
      * exists st'. split; [exact Hrun|done].
    + intros d Hd. simpl.
      specialize (Hdeps (length done) k pd d).
      rewrite Hsplit in Hdeps.
      rewrite list_lookup_middle, take_app_length in Hdeps by done.
      specialize (Hdeps eq_refl Hd). rewrite Hvisited. set_solver.
Qed.

(** X4.  A registry whose keys are already in dependency order (every name
    in the [localDeps] of a package is a key listed before it) comes out
    of [topologicalSortPackages] in the order of its keys. *)
Theorem sort_keeps_dependency_order (packages : Registry) :
  NoDup (keys packages) →
  (∀ i k pd d, packages !! i = Some (k, pd) → d ∈ localDeps pd →
               d ∈ keys (take i packages)) →
  topologicalSortPackages packages = Returned packages.*2.
Proof.
  intros Hnd Hdeps. unfold topologicalSortPackages, visitFuel.
  destruct packages as [|p packages]; [done|].
  destruct (sort_ordered_loop (p :: packages) (length packages) Hnd
              (p :: packages) [] initialState)
    as (st' & Hrun & Hres); [done..| |].
  { simpl. set_solver. }
  fold initialState. cbn [length]. rewrite Hrun. by rewrite Hres.
Qed.

Lemma sort_keeps_dependency_order_witness :
  NoDup (keys orderedRegistry) ∧
  (∀ i k pd d, orderedRegistry !! i = Some (k, pd) → d ∈ localDeps pd →
               d ∈ keys (take i orderedRegistry)) ∧
  topologicalSortPackages orderedRegistry = Returned orderedRegistry.*2.
Proof.
  assert (NoDup (keys orderedRegistry)) as H1
    by (apply (bool_decide_unpack _); vm_compute; exact I).
  assert (∀ i k pd d, orderedRegistry !! i = Some (k, pd) →
            d ∈ localDeps pd → d ∈ keys (take i orderedRegistry)) as H2.
  { intros i k pd d Hi Hd.
    destruct i as [|[|[|i]]]; simpl in Hi; simplify_eq; simpl in *;
      set_solver. }
  split; [exact H1|]. split; [exact H2|].
  exact (sort_keeps_dependency_order orderedRegistry H1 H2).
Defined.

Lemma sort_returned_order (packages : Registry) :
  depsResolve packages →
  ∃ ks st, forEach (λ k, visit packages (visitFuel packages) k [k])
             (keys packages) initialState = Returned st ∧
           sortInv packages ks st ∧
           ∀ k, is_Some (getPackage packages k) → k ∈ ks.
Proof.
  intros Hres. pose proof (sort_spec packages) as Hspec.
  destruct (forEach _ (keys packages) initialState) as [st|m|];
    simpl in Hspec; [| |done].
  - destruct Hspec as (new & Hinv & Hvis & _ & Hall).
    exists new, st. split; [done|]. split; [done|].
    intros k [pd Hk]. apply getPackage_Some_key in Hk.
    specialize (Hall k Hk). rewrite Hvis in Hall. set_solver.
  - destruct Hspec as (d & tail & missing & Hd & Hlast & _ & Hmiss & Hch).
    exfalso.
    apply (chain_last_key packages d tail missing) in Hch; [|done| |done].
    + rewrite Hmiss in Hch. by destruct Hch.
    + destruct (getPackage packages d) eqn:Hgd; [done|].
      by apply getPackage_None_key in Hgd.
Qed.



Lemma sort_missing_throws (packages : Registry) (k d : string) :
  edge packages k d → getPackage packages d = None →
  ∃ missing path,
    topologicalSortPackages packages
      = Thrown (missingPackageMessage missing path) ∧
    getPackage packages missing = None.
Proof.
  intros Hedge Hd. unfold topologicalSortPackages.
  pose proof (sort_spec packages) as Hspec. fold initialState.
  destruct (forEach _ (keys packages) initialState) as [st|m|];
    simpl in Hspec; [| |done].
  - exfalso. destruct Hspec as (new & Hinv & Hvis & _ & Hall).
    assert (∀ k, is_Some (getPackage packages k) → k ∈ new) as Hin.
    { intros k' [pd Hk]. apply getPackage_Some_key in Hk.
      specialize (Hall k' Hk). rewrite Hvis in Hall. set_solver. }
    assert (∀ x, x ∈ new → is_Some (getPackage packages x)) as Hnew.
    { intros x [i Hi]%list_elem_of_lookup.
      destruct (Forall2_lookup_l _ _ _ _ _ (inv_details _ _ _ Hinv) Hi)
        as (pd & _ & Hpd). by eexists. }
    destruct (inv_order _ _ _ Hinv k d) as [Hb|Hcyc]; [|done| |].
    + apply Hin. destruct Hedge as (pd & -> & _). done.
    + destruct Hb as (i & j & _ & Hi & _).
      apply list_elem_of_lookup_2, Hnew in Hi. rewrite Hd in Hi.
      by destruct Hi.
    + apply tc_rtc in Hcyc. destruct Hcyc as [|? ? ? (pd & Hpd & _) _].
      * destruct Hedge as (pd & Hpd & _). congruence.
      * congruence.
  - destruct Hspec as (k0 & tail & missing & Hk0 & Hlast & -> & Hmiss & Hch).
    by exists missing, (k0 :: tail).
Qed.

(** ** More on the recursive copy *)

Lemma mkdirFrom_keeps (todo : Path) : ∀ (done : Path) (fs fs1 : FileSystem),
  mkdirFrom done todo fs = Returned fs1 →
  (∀ q, onTheWay done todo q → fs1 !! q = Some DirEntry) ∧
  (∀ q, fs1 !! q = fs !! q ∨
        (onTheWay done todo q ∧ fs !! q = None ∧ fs1 !! q = Some DirEntry)).
Proof.
  induction todo as [|n rest IH]; intros done fs fs1; simpl.
  - intros [= <-]. split; [|by left].
    intros q (k & Hk & Hp%prefix_nil_inv & _). done.
  - destruct (fs !! (done ++ [n])) as [[c|]|] eqn:Hp; [done| |].
    + intros (Hon & Hkeep)%IH. split.
      * intros q [->|Hq]%onTheWay_cons; [|by apply Hon].
        destruct (Hkeep (done ++ [n])) as [->|(_ & _ & ->)]; done.
      * intros q. destruct (Hkeep q) as [?|(? & ? & ?)]; [by left|right].
        split; [|done]. apply onTheWay_cons. by right.
    + intros (Hon & Hkeep)%IH. split.
      * intros q [->|Hq]%onTheWay_cons; [|by apply Hon].
        destruct (Hkeep (done ++ [n])) as [->|(_ & _ & ->)]; [|done].
        by rewrite lookup_insert_eq.
      * intros q. destruct (decide (q = done ++ [n])) as [->|Hne].
        -- right. split; [apply onTheWay_cons; by left|]. split; [done|].
           destruct (Hkeep (done ++ [n])) as [->|(_ & _ & ->)]; [|done].
           by rewrite lookup_insert_eq.
        -- destruct (Hkeep q) as [Heq|(? & Hnone & ?)].
           ++ left. by rewrite Heq, lookup_insert_ne.
           ++ right. rewrite lookup_insert_ne in Hnone by done.
              split; [|done]. apply onTheWay_cons. by right.
Qed.

Lemma changedWithin_refl (dest : Path) (fs : FileSystem) :
  changedWithin dest fs fs.
Proof. intros q. by left. Qed.

Lemma changedWithin_keeps_directory (dest q : Path) (fs f : FileSystem) :
  changedWithin dest fs f → fs !! q = Some DirEntry → f !! q = Some DirEntry.
Proof. intros H Hq. destruct (H q) as [->|(_ & ? & _)]; done. Qed.

Lemma changedWithin_keeps_entry (dest q : Path) (fs f : FileSystem) :
  changedWithin dest fs f → is_Some (fs !! q) → is_Some (f !! q).
Proof. intros H Hq. destruct (H q) as [->|(? & _)]; done. Qed.

(** A change made below [dest ++ [n]], after the way to [dest] has been
    made, is a change below [dest]. *)
Lemma changedWithin_child (dest : Path) (n : string) (fs f1 f2 : FileSystem) :
  changedWithin dest fs f1 →
  (∀ q, q `prefix_of` dest → q ≠ [] → f1 !! q = Some DirEntry) →
  changedWithin (dest ++ [n]) f1 f2 →
  changedWithin dest fs f2.
Proof.
  intros H1 Hway H2 q.
  destruct (H2 q) as [Heq|(Hsome & Hnd & Hloc)].
  { rewrite Heq. apply H1. }
  right. split; [done|]. split.
  { destruct (H1 q) as [<-|(_ & ? & _)]; done. }
  left. destruct Hloc as [Hbelow|(Hpre & Hq & Hnone & _)].
  - etrans; [|exact Hbelow]. by eexists.
  - apply prefix_snoc_cases in Hpre as [->|Hpre]; [by eexists|].
    rewrite Hway in Hnone by done. done.
Qed.

Lemma copyRecursive_changes (fuel : nat) :
  ∀ (src dest : Path) (fs fs' : FileSystem),
    copyRecursive fuel src dest fs = Returned fs' → changedWithin dest fs fs'.
Proof.
  induction fuel as [|fuel IH]; intros src dest fs fs'; [done|].
  simpl. destruct (isDirectoryAt src fs).
  - unfold mkdirSync.
    destruct (mkdirFrom [] dest fs) as [fs1| |] eqn:Hmk; [|done..].
    apply mkdirFrom_keeps in Hmk as (Hon & Hkeep).
    assert (changedWithin dest fs fs1) as H1.
    { intros q. destruct (Hkeep q) as [?|(Hq & Hnone & Hdir)]; [by left|].
      right. apply onTheWay_root in Hq as [? ?].
      split; [by rewrite Hdir|]. split; [by rewrite Hnone|]. by right. }
    assert (∀ q, q `prefix_of` dest → q ≠ [] → fs1 !! q = Some DirEntry)
      as Hway.
    { intros q ? ?. apply Hon. by apply onTheWay_root. }
    clear Hon Hkeep. generalize (readdirSync src fs1) as names.
    intros names. revert fs1 H1 Hway.
    induction names as [|n names IHn]; intros f1 H1 Hway; simpl.
    + by intros [= <-].
    + destruct (copyRecursive fuel (src ++ [n]) (dest ++ [n]) f1)
        as [f2| |] eqn:Hn; [|done..].
      apply IH in Hn. apply IHn.
      * by eapply changedWithin_child.
      * intros q Hq Hne.
        eapply changedWithin_keeps_directory; [exact Hn|by apply Hway].
  - unfold copyFileSync.
    destruct (fs !! src) as [[content|]|]; [|done..].
    destruct (fs !! dest) as [[c|]|] eqn:Hd; [|done|];
      (destruct (fs !! parent dest) as [[c'|]|]; [done| |done]);
      intros [= <-] q;
      (destruct (decide (q = dest)) as [->|Hne];
         [right; rewrite lookup_insert_eq, Hd; split; [done|];
          split; [done|by left]
         |left; by rewrite lookup_insert_ne]).
Qed.

(** X6.  Whenever [copyRecursiveSync] returns, whatever the source and the
    destination: nothing was removed, a directory is still a directory,
    and what lies neither at or below the destination nor on the way to it
    is untouched; a regular file that does not lie at or below the
    destination keeps its content. *)
Theorem copy_changes_confined (src dest : Path) (fs fs' : FileSystem) :
  copyRecursiveSync src dest fs = Returned fs' →
  (∀ q, is_Some (fs !! q) → is_Some (fs' !! q)) ∧
  (∀ q, fs !! q = Some DirEntry → fs' !! q = Some DirEntry) ∧
  (∀ q, ¬ dest `prefix_of` q → ¬ q `prefix_of` dest → fs' !! q = fs !! q) ∧
  (∀ q content, fs !! q = Some (FileEntry content) → ¬ dest `prefix_of` q →
                fs' !! q = Some (FileEntry content)).
Proof.
  intros H%copyRecursive_changes. split; [|split; [|split]].
  - intros q. by eapply changedWithin_keeps_entry.
  - intros q. by eapply changedWithin_keeps_directory.
  - intros q H1 H2. destruct (H q) as [?|(_ & _ & [?|(? & _)])]; done.
  - intros q content Hq Hout.
    destruct (H q) as [->|(_ & _ & [?|(_ & _ & Hnone & _)])]; [done..|].
    congruence.
Qed.

Lemma copy_changes_confined_witness :
  ∃ fs',
    copyRecursiveSync ["package"] ["assets"] sampleFs = Returned fs' ∧
    (∀ q, is_Some (sampleFs !! q) → is_Some (fs' !! q)) ∧
    (∀ q, sampleFs !! q = Some DirEntry → fs' !! q = Some DirEntry) ∧
    (∀ q, ¬ ["assets"] `prefix_of` q → ¬ q `prefix_of` ["assets"] →
          fs' !! q = sampleFs !! q) ∧
    (∀ q content, sampleFs !! q = Some (FileEntry content) →
                  ¬ ["assets"] `prefix_of` q →
                  fs' !! q = Some (FileEntry content)).
Proof.
  destruct (copyRecursiveSync ["package"] ["assets"] sampleFs) as [fs'| |]
    eqn:Hrun; [|vm_compute in Hrun; discriminate Hrun..].
  exists fs'. split; [reflexivity|].
  exact (copy_changes_confined ["package"] ["assets"] sampleFs fs' Hrun).
Defined.

Lemma forEach_reaches {A St : Type} (f : A → St → Completion St)
  (l1 : list A) (x : A) (l2 : list A) (st st' : St) :
  forEach f (l1 ++ x :: l2) st = Returned st' →
  ∃ s1 s2, forEach f l1 st = Returned s1 ∧ f x s1 = Returned s2.
Proof.
  revert st. induction l1 as [|y l1 IH]; intros st; simpl.
  - destruct (f x st) as [s2| |] eqn:Hx; [|done..]. intros _.
    exists st, s2. split; [reflexivity|exact Hx].
  - destruct (f y st) as [s| |]; [|done..]. apply IH.
Qed.

Lemma forEach_copy_keeps_directory (fuel : nat) (src dest : Path)
  (names : list string) (q : Path) : ∀ f f' : FileSystem,
  forEach (λ n, copyRecursive fuel (src ++ [n]) (dest ++ [n])) names f
    = Returned f' →
  f !! q = Some DirEntry → f' !! q = Some DirEntry.
Proof.
  induction names as [|n names IH]; intros f f'; simpl.
  - by intros [= <-].
  - destruct (copyRecursive fuel (src ++ [n]) (dest ++ [n]) f) as [f2| |]
      eqn:Hn; [|done..].
    intros Hrest Hq. apply (IH f2 f' Hrest).
    eapply changedWithin_keeps_directory; [|exact Hq].
    by eapply copyRecursive_changes.
Qed.

Lemma copy_into_itself (fuel : nat) :
  ∀ (src tail : Path) (fs fs' : FileSystem),
    tail ≠ [] → isDirectoryAt src fs = true →
    copyRecursive fuel src (src ++ tail) fs ≠ Returned fs'.
Proof.
  induction fuel as [|fuel IH]; intros src tail fs fs' Htail Hdir; [done|].
  simpl. rewrite Hdir. unfold mkdirSync.
  destruct (mkdirFrom [] (src ++ tail) fs) as [fs1| |] eqn:Hmk; [|done..].
  apply mkdirFrom_keeps in Hmk as (Hon & _).
  destruct tail as [|n tail]; [done|].
  assert (fs1 !! (src ++ [n]) = Some DirEntry) as Hchild.
  { apply Hon, onTheWay_root. split; [by destruct src|].
    exists tail. by rewrite <- app_assoc. }
  assert (n ∈ readdirSync src fs1) as Hn
    by (apply elem_of_readdirSync; by rewrite Hchild).
  apply list_elem_of_split in Hn as (l1 & l2 & Hsplit). rewrite Hsplit.
  intros (s1 & s2 & Hbefore & Hcall)%forEach_reaches.
  assert (s1 !! (src ++ [n]) = Some DirEntry) as Hchild'
    by (by eapply forEach_copy_keeps_directory).
  replace ((src ++ n :: tail) ++ [n]) with ((src ++ [n]) ++ (tail ++ [n]))
    in Hcall by (by rewrite <- !app_assoc).
  apply (IH (src ++ [n]) (tail ++ [n]) s1 s2); [by destruct tail| |done].
  unfold isDirectoryAt. by rewrite Hchild'.
Qed.

(** X7.  A copy of a directory to a path below itself never returns: every
    call creates the directory that the next call copies.  The run ends
    in an exception or goes on for ever (the budget of the model is used
    up, whatever it is). *)
Theorem copy_below_itself_never_returns (src tail : Path) (fs : FileSystem) :
  tail ≠ [] → isDirectoryAt src fs = true →
  (∀ fuel fs', copyRecursive fuel src (src ++ tail) fs ≠ Returned fs') ∧
  ∀ fs', copyRecursiveSync src (src ++ tail) fs ≠ Returned fs'.
Proof.
  intros Htail Hdir. split.
  - intros fuel fs'. by apply copy_into_itself.
  - intros fs'. by apply copy_into_itself.
Qed.

Lemma copy_below_itself_never_returns_witness :
  ["backup"] ≠ [] ∧ isDirectoryAt ["package"] sampleFs = true ∧
  (∀ fuel fs',
     copyRecursive fuel ["package"] (["package"] ++ ["backup"]) sampleFs
     ≠ Returned fs') ∧
  ∀ fs', copyRecursiveSync ["package"] (["package"] ++ ["backup"]) sampleFs
         ≠ Returned fs'.
Proof.
  assert (["backup"] ≠ @nil string) as H1 by discriminate.
  assert (isDirectoryAt ["package"] sampleFs = true) as H2 by reflexivity.
  split; [exact H1|]. split; [exact H2|].
  exact (copy_below_itself_never_returns ["package"] ["backup"] sampleFs H1 H2).
Defined.

Lemma copy_directory_makes_way (fuel : nat) (src dest : Path)
  (fs fs' : FileSystem) :
  isDirectoryAt src fs = true →
  copyRecursive (Datatypes.S fuel) src dest fs = Returned fs' →
  ∀ q, q `prefix_of` dest → q ≠ [] → fs' !! q = Some DirEntry.
Proof.
  intros Hdir. simpl. rewrite Hdir. unfold mkdirSync.
  destruct (mkdirFrom [] dest fs) as [fs1| |] eqn:Hmk; [|done..].
  apply mkdirFrom_keeps in Hmk as (Hon & _). intros Hrun q Hq Hne.
  eapply forEach_copy_keeps_directory; [exact Hrun|].
  apply Hon. by apply onTheWay_root.
Qed.

Lemma copied_source_unchanged (src dest : Path) (fs fs' : FileSystem) :
  apart src dest → copied src dest fs fs' →
  ∀ r, fs' !! (src ++ r) = fs !! (src ++ r).
Proof.
  intros Hapart [_ Hout] r.
  destruct (Hout (src ++ r)) as [?|(Hpre & _)]; [|done|].
  - intros Hpre. by apply (apart_below src dest r (src ++ r)).
  - exfalso. by apply (apart_way src dest r (src ++ r)).
Qed.

(** X8.  Under the conditions of C8 a second copy changes nothing: the
    copy returns, and copying again returns the same file system. *)
Theorem copy_twice_is_copy_once (src dest : Path) (fs : FileSystem) :
  isTree src fs → apart src dest → noClash src dest fs →
  reachable src dest fs →
  ∃ fs', copyRecursiveSync src dest fs = Returned fs' ∧
         copyRecursiveSync src dest fs' = Returned fs'.
Proof.
  intros [Hsrc Hnest] Hapart Hclash Hreach.
  assert (dest ≠ []) as Hdest.
  { intros ->. destruct Hapart as [_ H]. apply H, prefix_nil. }
  assert (∀ f : FileSystem, ∀ r, is_Some (f !! (src ++ r)) →
            (length r < Datatypes.S (depth f))%nat) as Hfuel.
  { intros f r Hr. apply depth_bound in Hr. rewrite length_app in Hr. lia. }
  destruct (copyRecursive_spec (Datatypes.S (depth fs)) src dest fs)
    as (fs' & Hrun & Hcopied); [done..|by apply Hfuel|done|done|].
  exists fs'. split; [exact Hrun|].
  pose proof (copied_source_unchanged src dest fs fs' Hapart Hcopied) as Hsame.
  destruct Hcopied as [Hin Hout].
  assert (isDirectoryAt src fs' = isDirectoryAt src fs) as Hkind.
  { unfold isDirectoryAt. by rewrite <- (app_nil_r src), Hsame. }
  destruct (copyRecursive_spec (Datatypes.S (depth fs')) src dest fs')
    as (fs'' & Hrun' & Hin' & Hout').
  - done.
  - by rewrite <- (app_nil_r src), Hsame, app_nil_r.
  - intros r n. rewrite !Hsame. apply Hnest.
  - by apply Hfuel.
  - intros r e1 e2. rewrite Hsame, Hin. intros -> [= <-]. by destruct e1.
  - unfold reachable in *. rewrite Hkind.
    destruct (isDirectoryAt src fs) eqn:Hdir.
    + intros q e Hq Hne He.
      destruct (decide (q = dest)) as [->|Hqd].
      * specialize (Hin []). rewrite !app_nil_r in Hin.
        unfold isDirectoryAt in Hdir.
        destruct (fs !! src) as [[|]|]; [done| |done]. congruence.
      * destruct (Hout q) as [Heq|(_ & _ & _ & Hd)]; [| |congruence].
        -- intros Hp. apply Hqd. by apply (anti_symm prefix).
        -- rewrite Heq in He. by eapply Hreach.
    + destruct (Hout (parent dest)) as [->|(_ & _ & _ & ?)]; [|done..].
      intros Hp%prefix_length. unfold parent in Hp. rewrite length_take in Hp.
      destruct dest; [done|simpl in Hp; lia].
  - unfold copyRecursiveSync. rewrite Hrun'. f_equal. apply map_eq. intros q.
    destruct (decide (dest `prefix_of` q)) as [[r ->]|Hq].
    + rewrite Hin', Hsame, Hin. by destruct (fs !! (src ++ r)).
    + destruct (Hout' q Hq) as [?|(Hpre & Hne & Hnone & Hmade)]; [done|].
      exfalso. destruct (isDirectoryAt src fs) eqn:Hdir.
      * rewrite (copy_directory_makes_way (depth fs) src dest fs fs') in Hnone;
          done.
      * unfold copyRecursiveSync in Hrun'. simpl in Hrun'.
        rewrite Hkind in Hrun'. unfold copyFileSync in Hrun'.
        destruct (fs' !! src) as [[content|]|]; [|done..].
        destruct (fs' !! dest) as [[c|]|]; [|done|];
          (destruct (fs' !! parent dest) as [[c'|]|]; [done| |done]);
          injection Hrun' as <-;
          (rewrite lookup_insert_ne in Hmade by (by intros <-));
          congruence.
Qed.

Lemma copy_twice_is_copy_once_witness :
  isTree ["package"] sampleFs ∧ apart ["package"] ["assets"] ∧
  noClash ["package"] ["assets"] sampleFs ∧
  reachable ["package"] ["assets"] sampleFs ∧
  ∃ fs', copyRecursiveSync ["package"] ["assets"] sampleFs = Returned fs' ∧
         copyRecursiveSync ["package"] ["assets"] fs' = Returned fs'.
Proof.
  assert (isTree ["package"] sampleFs) as H1
    by (apply isTreeb_sound; vm_compute; reflexivity).
  assert (noClash ["package"] ["assets"] sampleFs) as H2
    by (apply noClashb_sound; vm_compute; reflexivity).
  assert (reachable ["package"] ["assets"] sampleFs) as H3
    by (apply reachableb_sound; vm_compute; reflexivity).
  split; [exact H1|]. split; [exact apart_package_assets|].
  split; [exact H2|]. split; [exact H3|].
  exact (copy_twice_is_copy_once ["package"] ["assets"] sampleFs
           H1 apart_package_assets H2 H3).
Defined.

Lemma mkdirFrom_file_on_the_way (todo : Path) :
  ∀ (walked q : Path) (content : list Byte.byte) (fs : FileSystem),
    onTheWay walked todo q → q ≠ walked ++ todo →
    fs !! q = Some (FileEntry content) →
    mkdirFrom walked todo fs = Thrown "ENOTDIR".
Proof.
  induction todo as [|n rest IH]; intros walked q content fs Hq Hne Hfile.
  - destruct Hq as (k & Hk & Hp%prefix_nil_inv & _). done.
  - simpl. apply onTheWay_cons in Hq.
    destruct (fs !! (walked ++ [n])) as [[c|]|] eqn:Hp.
    + destruct rest; [|done]. destruct Hq as [->|Hq]; [done|].
      destruct Hq as (k & Hk & Hpre%prefix_nil_inv & _). done.
    + destruct Hq as [->|Hq]; [congruence|].
      apply (IH _ q content); [done|by rewrite <- app_assoc|done].
    + destruct Hq as [->|Hq]; [congruence|].
      apply (IH _ q content); [done|by rewrite <- app_assoc|].
      rewrite lookup_insert_ne; [done|]. intros <-. congruence.
Qed.

Lemma mkdirFrom_file_at_the_end (todo : Path) :
  ∀ (walked : Path) (content : list Byte.byte) (fs : FileSystem),
    todo ≠ [] →
    fs !! (walked ++ todo) = Some (FileEntry content) →
    (∀ q c, onTheWay walked todo q → q ≠ walked ++ todo →
            fs !! q ≠ Some (FileEntry c)) →
    mkdirFrom walked todo fs = Thrown "EEXIST".
Proof.
  induction todo as [|n rest IH]; intros walked content fs Htodo Hfile Hclear;
    [done|].
  simpl. destruct rest as [|n' rest].
  - by rewrite Hfile.
  - assert (walked ++ [n] ≠ walked ++ n :: n' :: rest) as Hne.
    { intros H%app_inv_head. done. }
    assert (onTheWay walked (n :: n' :: rest) (walked ++ [n])) as Hon
      by (apply onTheWay_cons; by left).
    pose proof (λ c, Hclear (walked ++ [n]) c Hon Hne) as Hp.
    assert (∀ f : FileSystem,
              (∀ q, q ≠ walked ++ [n] → f !! q = fs !! q) →
              mkdirFrom (walked ++ [n]) (n' :: rest) f = Thrown "EEXIST") as Hgo.
    { intros f Hf. apply (IH (walked ++ [n]) content); [done| |].
      - rewrite <- app_assoc. simpl. by rewrite Hf.
      - intros q c Hq Hq'. rewrite <- app_assoc in Hq'. simpl in Hq'.
        destruct (decide (q = walked ++ [n])) as [->|Hqn].
        + by apply not_onTheWay_self in Hq.
        + rewrite Hf by done. apply Hclear; [|done].
          apply onTheWay_cons. by right. }
    destruct (fs !! (walked ++ [n])) as [[c|]|] eqn:Hdn.
    + by destruct (Hp c).
    + by apply Hgo.
    + apply Hgo. intros q Hq. by rewrite lookup_insert_ne.
Qed.



(** ** The dependency graph builder *)

Lemma keys_setProperty {A} (k : string) (v : A) (obj : list (string * A)) :
  ∀ x, x ∈ (setProperty k v obj).*1 ↔ x = k ∨ x ∈ obj.*1.
Proof.
  induction obj as [|[k' v'] rest IH]; intros x; simpl.
  - set_solver.
  - case_decide; subst; simpl; [set_solver|].
    rewrite !elem_of_cons, IH. naive_solver.
Qed.

Lemma NoDup_setProperty {A} (k : string) (v : A) (obj : list (string * A)) :
  NoDup obj.*1 → NoDup (setProperty k v obj).*1.
Proof.
  induction obj as [|[k' v'] rest IH]; simpl.
  - intros _. apply NoDup_singleton.
  - intros [Hk Hnd]%NoDup_cons. case_decide; subst; simpl.
    + by apply NoDup_cons.
    + apply NoDup_cons. split; [|by apply IH].
      rewrite keys_setProperty. naive_solver.
Qed.

Lemma elem_of_setProperty {A} (k : string) (v : A) (obj : list (string * A)) :
  ∀ x w, (x, w) ∈ setProperty k v obj → (x, w) = (k, v) ∨ (x, w) ∈ obj.
Proof.
  induction obj as [|[k' v'] rest IH]; intros x w; simpl.
  - set_solver.
  - case_decide; subst; rewrite !elem_of_cons; [naive_solver|].
    intros [?|?%IH]; naive_solver.
Qed.

Lemma fromEntries_spec {A} (entries : list (string * A)) :
  NoDup (fromEntries entries).*1 ∧
  (∀ x, x ∈ (fromEntries entries).*1 ↔ x ∈ entries.*1) ∧
  (∀ x w, (x, w) ∈ fromEntries entries → (x, w) ∈ entries).
Proof.
  unfold fromEntries.
  assert (∀ obj : list (string * A),
            NoDup obj.*1 →
            NoDup (foldl (λ o e, setProperty e.1 e.2 o) obj entries).*1 ∧
            (∀ x, x ∈ (foldl (λ o e, setProperty e.1 e.2 o) obj entries).*1
                  ↔ x ∈ obj.*1 ∨ x ∈ entries.*1) ∧
            (∀ x w, (x, w) ∈ foldl (λ o e, setProperty e.1 e.2 o) obj entries
                    → (x, w) ∈ obj ∨ (x, w) ∈ entries)) as H.
  { induction entries as [|[k v] entries IH]; intros obj Hnd; simpl.
    - split; [done|]. split; intros; set_solver.
    - destruct (IH (setProperty k v obj)) as (H1 & H2 & H3);
        [by apply NoDup_setProperty|].
      split; [done|]. split.
      + intros x. rewrite H2, keys_setProperty. set_solver.
      + intros x w [?%elem_of_setProperty|?]%H3; set_solver. }
  destruct (H [] (NoDup_nil_2)) as (H1 & H2 & H3).
  split; [done|]. split.
  - intros x. rewrite H2. set_solver.
  - intros x w [?|?]%H3; set_solver.
Qed.


Lemma getPackage_setProperty (k : string) (v : PackageDetails)
  (obj : Registry) (x : string) :
  getPackage (setProperty k v obj) x
  = if decide (x = k) then Some v else getPackage obj x.
Proof.
  induction obj as [|[k' v'] rest IH]; simpl.
  - repeat case_decide; congruence.
  - repeat (case_decide; simpl; subst); try congruence.
Qed.

Lemma getPackage_fromEntries_last (before after : Registry) (k : string)
  (v : PackageDetails) :
  (∀ e, e ∈ after → e.1 ≠ k) →
  getPackage (fromEntries (before ++ (k, v) :: after)) k = Some v.
Proof.
  intros Hafter. unfold fromEntries. rewrite foldl_app. simpl.
  generalize (foldl (λ o e, setProperty e.1 e.2 o) [] before) as obj.
  intros obj.
  assert (∀ o : Registry,
            getPackage (foldl (λ o e, setProperty e.1 e.2 o) o after) k
            = getPackage o k) as Hkeep.
  { induction after as [|[k' v'] after IH]; intros o; [done|]. simpl.
    rewrite IH by (intros e He; apply Hafter; by right).
    rewrite getPackage_setProperty, decide_False; [done|].
    intros ->. by apply (Hafter (k', v')); [left|]. }
  rewrite Hkeep, getPackage_setProperty. by rewrite decide_True.
Qed.

Lemma mapThrowing_Returned {A B} (f : A → Completion B) (l : list A)
  (ys : list B) :
  mapThrowing f l = Returned ys → Forall2 (λ x y, f x = Returned y) l ys.
Proof.
  revert ys. induction l as [|x l IH]; intros ys; simpl.
  - intros [= <-]. constructor.
  - destruct (f x) as [y| |] eqn:Hx; [|done..].
    destruct (mapThrowing f l) as [ys'| |]; [|done..].
    intros [= <-]. constructor; [done|by apply IH].
Qed.

Lemma mapThrowing_Thrown {A B} (f : A → Completion B) (l : list A) (x : A)
  (message : string) :
  x ∈ l → f x = Thrown message → (∀ y, y ∈ l → f y ≠ Exhausted) →
  ∃ message', mapThrowing f l = Thrown message'.
Proof.
  induction l as [|y l IH]; intros Hx Hfx Hl; [by apply elem_of_nil in Hx|].
  simpl. destruct (f y) as [z| |] eqn:Hy.
  - apply elem_of_cons in Hx as [->|Hx]; [congruence|].
    destruct (IH Hx Hfx) as [m ->]; [|by eexists].
    intros y' Hy'. apply Hl. by right.
  - by eexists.
  - exfalso. apply (Hl y); [left|done].
Qed.

Section BuilderProofs.
Variable bublicRoot : Path.
Variable parseManifest : list Byte.byte -> string + Manifest.

#[local] Abbreviation root := (packagesRoot bublicRoot).
#[local] Abbreviation detailsIn :=
  (fun d => detailsFrom (packagesRoot bublicRoot ++ [d])).
#[local] Abbreviation readPackage :=
  (fun fs d => getPackageDetails parseManifest
                 (packagesRoot bublicRoot ++ [d]) fs).
#[local] Abbreviation isPublic := (publicManifest bublicRoot parseManifest).
#[local] Abbreviation build := (getAllPackageDetails bublicRoot parseManifest).

Lemma getPackageDetails_Some (fs : FileSystem) (d : string)
  (pd : PackageDetails) :
  readPackage fs d = Returned (Some pd) ↔
  ∃ text m, fs !! (root ++ [d; "package.json"]) = Some (FileEntry text) ∧
            parseManifest text = inr m ∧ manifestPrivate m = false ∧
            pd = detailsIn d m.
Proof.
  unfold getPackageDetails. rewrite <- app_assoc. simpl.
  destruct (fs !! (root ++ [d; "package.json"])) as [[text|]|].
  - destruct (parseManifest text) as [msg|m] eqn:Hm.
    + split; [done|]. intros (? & ? & [= <-] & ? & _). congruence.
    + destruct (manifestPrivate m) eqn:Hp.
      * split; [done|]. intros (? & ? & [= <-] & ? & ? & _). congruence.
      * split.
        -- intros [= <-]. by exists text, m.
        -- intros (? & ? & [= <-] & ? & ? & ->). congruence.
  - split; [done|]. by intros (? & ? & ? & _).
  - split; [done|]. by intros (? & ? & ? & _).
Qed.

(** What a returned registry is made of: the listing of [packages], what
    each directory gave, and the entries handed to
    [Object.fromEntries]. *)
Lemma build_Returned (fs : FileSystem) (packages : Registry) :
  build fs = Returned packages →
  ∃ results,
    Forall2 (λ d r, readPackage fs d = Returned r)
      (readdirSync root fs) results ∧
    packages
    = fromEntries ((λ r : PackageDetails, (name r, r)) <$> omap id results).
Proof.
  unfold getAllPackageDetails, listPackages.
  destruct (fs !! root) as [[|]|]; [done| |done].
  destruct (mapThrowing _ (readdirSync root fs)) as [results| |] eqn:Hmap;
    [|done..].
  intros [= <-]. exists results. split; [|done].
  by apply mapThrowing_Returned.
Qed.

Lemma build_entry (fs : FileSystem) (packages : Registry) (k : string)
  (pd : PackageDetails) :
  build fs = Returned packages → (k, pd) ∈ packages →
  k = name pd ∧ ∃ d m, isPublic fs d m ∧ pd = detailsIn d m.
Proof.
  intros (results & Hres & ->)%build_Returned Hin.
  apply (proj2 (proj2 (fromEntries_spec _))) in Hin.
  apply list_elem_of_fmap in Hin as (pd' & [= -> ->] & Hpd).
  split; [done|].
  apply list_elem_of_omap in Hpd as (r & Hr & Heq). cbv [id] in Heq. subst r.
  apply list_elem_of_lookup in Hr as [i Hi].
  destruct (Forall2_lookup_r _ _ _ _ _ Hres Hi) as (d & Hd & Hread).
  apply getPackageDetails_Some in Hread as (text & m & ? & ? & ? & ->).
  exists d, m. split; [|done].
  split; [by eapply list_elem_of_lookup_2|]. by exists text.
Qed.

Lemma build_key (fs : FileSystem) (packages : Registry) (d : string)
  (m : Manifest) :
  build fs = Returned packages → isPublic fs d m →
  manifestName m ∈ keys packages.
Proof.
  intros (results & Hres & ->)%build_Returned [Hd (text & Htext & Hm & Hp)].
  apply (proj1 (proj2 (fromEntries_spec _))).
  apply list_elem_of_lookup in Hd as [i Hi].
  destruct (Forall2_lookup_l _ _ _ _ _ Hres Hi) as (r & Hr & Hread).
  assert (readPackage fs d = Returned (Some (detailsIn d m))) as Hsome
    by (apply getPackageDetails_Some; by exists text, m).
  rewrite Hsome in Hread. injection Hread as <-.
  apply list_elem_of_fmap. exists (manifestName m, detailsIn d m).
  split; [done|]. apply list_elem_of_fmap. exists (detailsIn d m).
  split; [done|]. apply list_elem_of_omap. exists (Some (detailsIn d m)).
  split; [by eapply list_elem_of_lookup_2|done].
Qed.

Lemma build_NoDup (fs : FileSystem) (packages : Registry) :
  build fs = Returned packages → NoDup (keys packages).
Proof.
  intros (results & _ & ->)%build_Returned. apply fromEntries_spec.
Qed.

(** X10.  In the registry that [getAllPackageDetails] returns no key occurs
    twice, every package is registered under its own name, and every name
    in a [localDeps] starts with [@tldraw]. *)
Theorem registry_is_keyed_by_name (fs : FileSystem) (packages : Registry) :
  build fs = Returned packages →
  NoDup (keys packages) ∧
  ∀ k pd, (k, pd) ∈ packages →
          name pd = k ∧
          Forall (λ dep, String.prefix "@tldraw" dep = true) (localDeps pd).
Proof.
  intros Hbuild. split; [by eapply build_NoDup|].
  - intros k pd Hin.
    destruct (build_entry fs packages k pd Hbuild Hin)
      as (-> & d & m & _ & ->).
    split; [done|]. apply Forall_forall. intros dep Hdep. simpl in Hdep.
    unfold localDepsOf in Hdep. apply list_elem_of_In, filter_In in Hdep.
    tauto.
Qed.


(** X12.  The registry takes every dependency whose name starts with
    [@tldraw], public or not.  When each of them is the name of a public
    manifest, every [localDeps] name resolves; a package that depends on
    an [@tldraw] name that no public manifest bears has a dependency that
    is missing from the registry. *)
Theorem registry_dependencies (fs : FileSystem) (packages : Registry) :
  build fs = Returned packages →
  ((∀ d m dep, isPublic fs d m → dep ∈ localDepsOf m →
               ∃ d' m', isPublic fs d' m' ∧ manifestName m' = dep) →
   depsResolve packages) ∧
  (∀ k pd dep, (k, pd) ∈ packages → dep ∈ localDeps pd →
               (∀ d' m', isPublic fs d' m' → manifestName m' ≠ dep) →
               edge packages k dep ∧ getPackage packages dep = None).
Proof.
  intros Hbuild.
  pose proof (build_NoDup fs packages Hbuild) as Hnd.
  split.
  - intros Hall k dep (pd & Hk & Hdep).
    apply getPackage_Some_elem, list_elem_of_In in Hk.
    destruct (build_entry fs packages k pd Hbuild Hk) as (_ & d & m & Hm & ->).
    destruct (Hall d m dep Hm Hdep) as (d' & m' & Hm' & <-).
    pose proof (build_key fs packages d' m' Hbuild Hm') as Hkey.
    destruct (getPackage packages (manifestName m')) eqn:Hg; [done|].
    by apply getPackage_None_key in Hg.
  - intros k pd dep Hin Hdep Hnone. split.
    + exists pd. split; [by apply getPackage_own|done].
    + destruct (getPackage packages dep) as [pd'|] eqn:Hg; [|done].
      apply getPackage_Some_elem, list_elem_of_In in Hg.
      destruct (build_entry fs packages dep pd' Hbuild Hg)
        as (-> & d' & m' & Hm' & ->).
      by destruct (Hnone d' m' Hm').
Qed.

End BuilderProofs.

Lemma monorepo_built :
  getAllPackageDetails ["repo"] sampleParse monorepo
  = Returned monorepoRegistry.
Proof. vm_compute. reflexivity. Qed.

Lemma registry_is_keyed_by_name_witness :
  getAllPackageDetails ["repo"] sampleParse monorepo
    = Returned monorepoRegistry ∧
  NoDup (keys monorepoRegistry) ∧
  ∀ k pd, (k, pd) ∈ monorepoRegistry →
          name pd = k ∧
          Forall (λ dep, String.prefix "@tldraw" dep = true) (localDeps pd).
Proof.
  split; [exact monorepo_built|].
  exact (registry_is_keyed_by_name ["repo"] sampleParse monorepo
           monorepoRegistry monorepo_built).
Defined.


Lemma monorepo_public (d : string) (m : Manifest) :
  publicManifest ["repo"] sampleParse monorepo d m →
  manifestName m ≠ "@tldraw/internal".
Proof.
  intros [_ (text & _ & Hparse & Hpublic)]. unfold sampleParse in Hparse.
  destruct text as [|b [|? ?]]; [done| |by destruct b].
  destruct b; try done; injection Hparse as <-; done.
Qed.

Lemma registry_dependencies_witness :
  getAllPackageDetails ["repo"] sampleParse monorepo
    = Returned monorepoRegistry ∧
  edge monorepoRegistry "@tldraw/editor" "@tldraw/internal" ∧
  getPackage monorepoRegistry "@tldraw/internal" = None.
Proof.
  split; [exact monorepo_built|].
  apply (proj2 (registry_dependencies ["repo"] sampleParse monorepo
                  monorepoRegistry monorepo_built)
           "@tldraw/editor"
           {| name := "@tldraw/editor"; dir := "/repo/packages/editor";
              localDeps := ["@tldraw/utils"; "@tldraw/internal"];
              version := "2.0.0-canary.1" |}
           "@tldraw/internal").
  - right. left.
  - right. left.
  - exact monorepo_public.
Defined.

Lemma sort_thrown_message (packages : Registry) (message : string) :
  topologicalSortPackages packages = Thrown message →
  ∃ missing path, message = missingPackageMessage missing path ∧
                  getPackage packages missing = None.
Proof.
  unfold topologicalSortPackages.
  pose proof (sort_spec packages) as Hspec. fold initialState.
  destruct (forEach _ (keys packages) initialState) as [st|m|];
    simpl in Hspec; [done| |done].
  destruct Hspec as (k0 & tail & missing & _ & _ & -> & Hmiss & _).
  intros [= <-]. by exists missing, (k0 :: tail).
Qed.

Section PublishOrderProofs.
Variable bublicRoot : Path.
Variable parseManifest : list Byte.byte -> string + Manifest.

#[local] Abbreviation isPublicIn := (publicManifest bublicRoot parseManifest).
#[local] Abbreviation built := (getAllPackageDetails bublicRoot parseManifest).
#[local] Abbreviation order := (publishOrder bublicRoot parseManifest).

(** X13.  [publish] gets an order of publication exactly when every
    [@tldraw] dependency of a registered package is the name of a public
    manifest; otherwise the sort throws before anything is published, and
    the package named in the message is one that no public manifest
    bears. *)
Theorem publish_order_needs_public_dependencies (fs : FileSystem)
  (packages : Registry) :
  built fs = Returned packages →
  ((∃ l, order fs = Returned l) ↔
   ∀ k pd dep, (k, pd) ∈ packages → dep ∈ localDeps pd →
               ∃ d m, isPublicIn fs d m ∧ manifestName m = dep) ∧
  (∀ message, order fs = Thrown message →
              ∃ missing path,
                message = missingPackageMessage missing path ∧
                ∀ d m, isPublicIn fs d m → manifestName m ≠ missing).
Proof.
  intros Hbuild. unfold publishOrder. rewrite Hbuild.
  pose proof (build_NoDup _ _ fs packages Hbuild) as Hnd.
  split; [split|].
  - intros [l Hl] k pd dep Hin Hdep.
    destruct (getPackage packages dep) as [pd'|] eqn:Hg.
    + apply getPackage_Some_elem, list_elem_of_In in Hg.
      destruct (build_entry _ _ fs packages dep pd' Hbuild Hg)
        as (-> & d & m & Hm & ->).
      by exists d, m.
    + destruct (sort_missing_throws packages k dep) as (? & ? & Hthrown & _);
        [|done|congruence].
      exists pd. split; [by apply getPackage_own|done].
  - intros Hall.
    destruct (sort_returned_order packages) as (ks & st & Hrun & _).
    + intros k dep (pd & Hk & Hdep).
      apply getPackage_Some_elem, list_elem_of_In in Hk.
      destruct (Hall k pd dep Hk Hdep) as (d & m & Hm & <-).
      pose proof (build_key _ _ fs packages d m Hbuild Hm) as Hkey.
      destruct (getPackage packages (manifestName m)) eqn:Hg; [done|].
      by apply getPackage_None_key in Hg.
    + exists (sorted st). unfold topologicalSortPackages.
      fold initialState. by rewrite Hrun.
  - intros message (missing & path & -> & Hnone)%sort_thrown_message.
    exists missing, path. split; [done|]. intros d m Hm <-.
    apply getPackage_None_key in Hnone. apply Hnone.
    by eapply build_key.
Qed.

End PublishOrderProofs.

Lemma publish_order_needs_public_dependencies_witness :
  getAllPackageDetails ["repo"] sampleParse monorepo
    = Returned monorepoRegistry ∧
  ((∃ l, publishOrder ["repo"] sampleParse monorepo = Returned l) ↔
   ∀ k pd dep, (k, pd) ∈ monorepoRegistry → dep ∈ localDeps pd →
               ∃ d m, publicManifest ["repo"] sampleParse monorepo d m ∧
                      manifestName m = dep) ∧
  (∀ message,
     publishOrder ["repo"] sampleParse monorepo = Thrown message →
     ∃ missing path,
       message = missingPackageMessage missing path ∧
       ∀ d m, publicManifest ["repo"] sampleParse monorepo d m →
              manifestName m ≠ missing).
Proof.
  split; [exact monorepo_built|].
  exact (publish_order_needs_public_dependencies ["repo"] sampleParse
           monorepo monorepoRegistry monorepo_built).
Defined.

Example publish_order_of_monorepo :
  publishOrder ["repo"] sampleParse monorepo
  = Thrown "Could not find package @tldraw/internal. path: @tldraw/editor -> @tldraw/internal".
Proof. vm_compute. reflexivity. Qed.

Section BuilderFailures.
Variable bublicRoot : Path.
Variable parseManifest : list Byte.byte -> string + Manifest.

(** X14.  [getAllPackageDetails] throws when [packages] does not exist,
    and when the [package.json] of any directory, public or private, is no
    JSON: one unreadable manifest and no registry is returned. *)
Theorem registry_failure_modes (fs : FileSystem) :
  (fs !! packagesRoot bublicRoot = None →
   getAllPackageDetails bublicRoot parseManifest fs = Thrown "ENOENT") ∧
  (∀ d text message,
     fs !! packagesRoot bublicRoot = Some DirEntry →
     d ∈ readdirSync (packagesRoot bublicRoot) fs →
     fs !! (packagesRoot bublicRoot ++ [d; "package.json"])
       = Some (FileEntry text) →
     parseManifest text = inl message →
     ∃ message',
       getAllPackageDetails bublicRoot parseManifest fs = Thrown message').
Proof.
  unfold getAllPackageDetails, listPackages. split.
  - by intros ->.
  - intros d text message -> Hd Htext Hparse.
    destruct (mapThrowing_Thrown
                (λ d, getPackageDetails parseManifest
                        (packagesRoot bublicRoot ++ [d]) fs)
                (readdirSync (packagesRoot bublicRoot) fs) d message Hd)
      as [message' ->]; [| |by eexists].
    + unfold getPackageDetails. rewrite <- app_assoc. simpl.
      by rewrite Htext, Hparse.
    + intros y _. unfold getPackageDetails.
      destruct (fs !! (_ ++ ["package.json"])) as [[t|]|]; [|done..].
      destruct (parseManifest t) as [msg|m]; [done|].
      by destruct (manifestPrivate m).
Qed.

End BuilderFailures.

Lemma registry_failure_modes_witness :
  brokenMonorepo !! packagesRoot ["repo"] = Some DirEntry ∧
  "docs" ∈ readdirSync (packagesRoot ["repo"]) brokenMonorepo ∧
  brokenMonorepo !! (packagesRoot ["repo"] ++ ["docs"; "package.json"])
    = Some (FileEntry [Byte.x00]) ∧
  sampleParse [Byte.x00] = inl "Unexpected token in JSON at position 0" ∧
  ∃ message',
    getAllPackageDetails ["repo"] sampleParse brokenMonorepo
    = Thrown message'.
Proof.
  assert (brokenMonorepo !! packagesRoot ["repo"] = Some DirEntry) as H1
    by (vm_compute; reflexivity).
  assert ("docs" ∈ readdirSync (packagesRoot ["repo"]) brokenMonorepo) as H2.
  { apply elem_of_readdirSync. vm_compute. by eexists. }
  assert (brokenMonorepo !! (packagesRoot ["repo"] ++ ["docs"; "package.json"])
          = Some (FileEntry [Byte.x00])) as H3 by (vm_compute; reflexivity).
  assert (sampleParse [Byte.x00] = inl "Unexpected token in JSON at position 0") as H4
    by reflexivity.
  split; [exact H1|]. split; [exact H2|]. split; [exact H3|].
  split; [exact H4|].
  exact (proj2 (registry_failure_modes ["repo"] sampleParse brokenMonorepo)
           "docs" [Byte.x00] "Unexpected token in JSON at position 0" H1 H2 H3 H4).
Defined.

Section LatestVersionProofs.
Variable SemVer : Type.
Variable parse : string -> option SemVer.
Variable compare : SemVer -> SemVer -> comparison.
Variable invalidVersion : string.

(** [compare] is consistent: swapping the arguments swaps the sign, and
    "not greater" is transitive. *)
Hypothesis compare_swap : ∀ x y, compare y x = CompOpp (compare x y).
Hypothesis compare_trans :
  ∀ x y z, compare x y ≠ Gt → compare y z ≠ Gt → compare x z ≠ Gt.

#[local] Abbreviation inOrder := (ascending SemVer compare).
#[local] Abbreviation sortAll := (sortVersions SemVer compare invalidVersion).
#[local] Abbreviation insertOne := (insertSorted SemVer compare invalidVersion).
#[local] Abbreviation latest := (latestVersionOf SemVer parse compare invalidVersion).

Lemma insertSorted_parsed (x : SemVer) (l : list SemVer) :
  inOrder l →
  ∃ l', insertOne (Some x) (Some <$> l) = Returned (Some <$> l') ∧
        l' ≡ₚ x :: l ∧ inOrder l'.
Proof.
  induction l as [|y l IH]; intros Hsorted; simpl.
  - exists [x]. split; [done|]. split; [done|]. by split.
  - destruct Hsorted as [Hy Hl].
    assert (compare x y ≠ Lt →
            ∃ l', match insertOne (Some x) (Some <$> l) with
                  | Returned l' => Returned (Some y :: l')
                  | Thrown message => Thrown message
                  | Exhausted => Exhausted
                  end = Returned (Some <$> l') ∧
                  l' ≡ₚ x :: y :: l ∧ inOrder l') as Hbehind.
    { intros Hxy. destruct (IH Hl) as (l' & -> & Hperm & Hsorted').
      exists (y :: l'). split; [done|]. split.
      - rewrite Hperm. apply Permutation_swap.
      - split; [|done]. rewrite Hperm. constructor; [|done].
        rewrite compare_swap. by destruct (compare x y). }
    destruct (compare x y) eqn:Hxy; [by apply Hbehind| |by apply Hbehind].
    exists (x :: y :: l). split; [done|]. split; [done|].
    split; [|by split]. constructor; [by rewrite Hxy|].
    eapply Forall_impl; [exact Hy|]. intros z Hz.
    apply (compare_trans x y z); [by rewrite Hxy|done].
Qed.

Lemma sortFrom_parsed (l acc : list SemVer) :
  inOrder acc →
  ∃ l', sortFrom SemVer compare invalidVersion (Some <$> acc) (Some <$> l)
        = Returned (Some <$> l') ∧
        l' ≡ₚ acc ++ l ∧ inOrder l'.
Proof.
  revert acc. induction l as [|x l IH]; intros acc Hacc.
  - exists acc. by rewrite app_nil_r.
  - rewrite fmap_cons. cbn [sortFrom].
    destruct (insertSorted_parsed x acc Hacc) as (acc' & -> & Hperm & Hacc').
    destruct (IH acc' Hacc') as (l' & -> & Hperm' & Hl').
    exists l'. split; [done|]. split; [|done].
    rewrite Hperm', Hperm. simpl. apply Permutation_middle.
Qed.

Lemma last_of_sorted (l : list SemVer) (v : SemVer) :
  inOrder l → last l = Some v → ∀ w, w ∈ l → compare w v ≠ Gt.
Proof.
  induction l as [|x l IH]; intros Hsorted Hlast w Hw; [done|].
  destruct Hsorted as [Hx Hl]. destruct l as [|y l].
  - apply list_elem_of_singleton in Hw as ->. injection Hlast as ->.
    pose proof (compare_swap v v) as H. by destruct (compare v v).
  - rewrite last_cons_cons in Hlast.
    apply elem_of_cons in Hw as [->|Hw]; [|by apply IH].
    rewrite Forall_forall in Hx. apply Hx. by eapply last_Some_elem_of.
Qed.

(** X15.  When the versions of all packages parse, [getLatestVersion]
    returns the version of one of the packages, and no package has a
    greater one. *)
Theorem latest_version_is_a_maximum (packages : Registry) :
  packages ≠ [] →
  (∀ p, p ∈ packages.*2 → is_Some (parse (version p))) →
  ∃ v, latestVersionOf SemVer parse compare invalidVersion packages
         = Returned v ∧
       (∃ p, p ∈ packages.*2 ∧ parse (version p) = Some v) ∧
       ∀ p w, p ∈ packages.*2 → parse (version p) = Some w →
              compare w v ≠ Gt.
Proof.
  intros Hne Hparse. unfold latestVersionOf.
  assert (∃ vs, (λ p : PackageDetails, parse (version p)) <$> packages.*2
                = Some <$> vs ∧
                ∀ w, w ∈ vs ↔ ∃ p, p ∈ packages.*2 ∧ parse (version p) = Some w)
    as (vs & -> & Hvs).
  { induction (packages.*2) as [|p ps IH].
    - exists []. split; [done|]. intros w. split; [by intros ?%elem_of_nil|].
      by intros (? & ?%elem_of_nil & _).
    - destruct (Hparse p) as [v Hv]; [left|].
      destruct IH as (vs & Heq & Hvs); [intros; apply Hparse; by right|].
      exists (v :: vs). split; [by rewrite !fmap_cons, Heq, Hv|].
      intros w. rewrite elem_of_cons, Hvs. split.
      + intros [->|(q & ? & ?)]; [exists p; split; [left|done]|].
        exists q. split; [by right|done].
      + intros (q & [->|?]%elem_of_cons & Hq); [left; congruence|].
        right. by exists q. }
  destruct (sortFrom_parsed vs []) as (l' & Hsort & Hperm & Hsorted);
    [done|].
  unfold sortVersions. change (@nil (option SemVer)) with (Some <$> @nil SemVer).
  rewrite Hsort. simpl in Hperm.
  assert (vs ≠ []) as Hvs0.
  { destruct packages as [|[k p] ?]; [done|].
    intros ->. destruct (Hparse p) as [v Hv]; [left|].
    apply (not_elem_of_nil v), Hvs. exists p. split; [left|done]. }
  destruct (last l') as [v|] eqn:Hlast.
  2:{ apply last_None in Hlast as ->. apply Permutation_nil_l in Hperm.
      by symmetry in Hperm. }
  rewrite fmap_last, Hlast. simpl. exists v. split; [done|]. split.
  - apply Hvs. rewrite <- Hperm. by eapply last_Some_elem_of.
  - intros p w Hp Hw. apply (last_of_sorted l' v Hsorted Hlast).
    rewrite Hperm. apply Hvs. by exists p.
Qed.

End LatestVersionProofs.

Section LatestVersionFailures.
Variable SemVer : Type.
Variable parse : string -> option SemVer.
Variable compare : SemVer -> SemVer -> comparison.
Variable invalidVersion : string.

#[local] Abbreviation insertAny := (insertSorted SemVer compare invalidVersion).
#[local] Abbreviation sortOn := (sortFrom SemVer compare invalidVersion).

Lemma insertSorted_length (x : SemVer) (l : list SemVer) :
  ∃ l', insertAny (Some x) (Some <$> l) = Returned (Some <$> l') ∧
        length l' = Datatypes.S (length l).
Proof.
  induction l as [|y l (l' & IH & Hlen)].
  - by exists [x].
  - rewrite fmap_cons. cbn [insertSorted]. unfold compareParsed.
    destruct (compare x y).
    + rewrite IH. exists (y :: l'). split; [done|]. simpl. lia.
    + by exists (x :: y :: l).
    + rewrite IH. exists (y :: l'). split; [done|]. simpl. lia.
Qed.

Lemma sortFrom_unparsed (l : list (option SemVer)) :
  ∀ acc : list (option SemVer),
    (acc = [None] ∨ ∃ vs, acc = Some <$> vs) →
    None ∈ acc ++ l → (2 ≤ length (acc ++ l))%nat →
    sortOn acc l = Thrown invalidVersion.
Proof.
  induction l as [|x l IH]; intros acc Hacc Hnone Hlen.
  - rewrite app_nil_r in *. destruct Hacc as [->|(vs & ->)]; [simpl in Hlen; lia|].
    apply list_elem_of_fmap in Hnone as (? & ? & _). done.
  - cbn [sortFrom]. destruct Hacc as [->|(vs & ->)].
    { by destruct x. }
    destruct x as [v|].
    + destruct (insertSorted_length v vs) as (vs' & -> & Hvs').
      apply IH; [right; by exists vs'| |].
      * apply elem_of_app in Hnone as [Hnone|Hnone].
        -- apply list_elem_of_fmap in Hnone as (? & ? & _). done.
        -- apply elem_of_app. right.
           apply elem_of_cons in Hnone as [?|?]; done.
      * rewrite length_app, length_fmap in *. simpl in Hlen. lia.
    + destruct vs as [|v vs]; [|done]. simpl.
      apply IH; [by left|by left|].
      simpl in *. lia.
Qed.

(** X16.  [getLatestVersion] throws "Could not find latest version" on an
    empty registry, and on a registry whose only package has a version
    that does not parse; with two or more packages a version that does not
    parse makes the comparison throw. *)
Theorem latest_version_failure_modes (packages : Registry) :
  (packages = [] →
   latestVersionOf SemVer parse compare invalidVersion packages
   = Thrown "Could not find latest version") ∧
  (∀ k p, packages = [(k, p)] → parse (version p) = None →
          latestVersionOf SemVer parse compare invalidVersion packages
          = Thrown "Could not find latest version") ∧
  ((∃ p, p ∈ packages.*2 ∧ parse (version p) = None) →
   (2 ≤ length packages)%nat →
   latestVersionOf SemVer parse compare invalidVersion packages
   = Thrown invalidVersion).
Proof.
  split; [|split].
  - by intros ->.
  - intros k p -> Hp. unfold latestVersionOf. simpl. by rewrite Hp.
  - intros (p & Hin & Hp) Hlen. unfold latestVersionOf, sortVersions.
    rewrite sortFrom_unparsed; [done|right; by exists []| |].
    + simpl. apply list_elem_of_fmap. by exists p.
    + simpl. by rewrite !length_fmap.
Qed.

End LatestVersionFailures.

Lemma latest_version_is_a_maximum_witness :
  (∀ x y, Nat.compare y x = CompOpp (Nat.compare x y)) ∧
  (∀ x y z, Nat.compare x y ≠ Gt → Nat.compare y z ≠ Gt →
            Nat.compare x z ≠ Gt) ∧
  versionedRegistry ≠ [] ∧
  (∀ p, p ∈ versionedRegistry.*2 → is_Some (lengthVersion (version p))) ∧
  ∃ v, latestVersionOf nat lengthVersion Nat.compare "Invalid Version"
         versionedRegistry = Returned v ∧
       (∃ p, p ∈ versionedRegistry.*2 ∧ lengthVersion (version p) = Some v) ∧
       ∀ p w, p ∈ versionedRegistry.*2 → lengthVersion (version p) = Some w →
              Nat.compare w v ≠ Gt.
Proof.
  assert (∀ x y, Nat.compare y x = CompOpp (Nat.compare x y)) as H1
    by (intros; apply Nat.compare_antisym).
  assert (∀ x y z, Nat.compare x y ≠ Gt → Nat.compare y z ≠ Gt →
            Nat.compare x z ≠ Gt) as H2.
  { intros x y z. rewrite !Nat.compare_le_iff. lia. }
  assert (versionedRegistry ≠ []) as H3 by discriminate.
  assert (∀ p, p ∈ versionedRegistry.*2 →
            is_Some (lengthVersion (version p))) as H4.
  { intros p Hp. simpl in Hp.
    repeat (apply elem_of_cons in Hp as [->|Hp]; [by eexists|]).
    by apply elem_of_nil in Hp. }
  split; [exact H1|]. split; [exact H2|]. split; [exact H3|].
  split; [exact H4|].
  exact (latest_version_is_a_maximum nat lengthVersion Nat.compare
           "Invalid Version" H1 H2 versionedRegistry H3 H4).
Defined.

Lemma latest_version_failure_modes_witness :
  (∃ p, p ∈ brokenRegistry.*2 ∧ lengthVersion (version p) = None) ∧
  (2 ≤ length brokenRegistry)%nat ∧
  latestVersionOf nat lengthVersion Nat.compare "Invalid Version"
    brokenRegistry = Thrown "Invalid Version".
Proof.
  assert (∃ p, p ∈ brokenRegistry.*2 ∧ lengthVersion (version p) = None)
    as H1.
  { eexists. split; [right; left|reflexivity]. }
  assert (2 ≤ length brokenRegistry)%nat as H2 by (simpl; lia).
  split; [exact H1|]. split; [exact H2|].
  exact (proj2 (proj2 (latest_version_failure_modes nat lengthVersion
                         Nat.compare "Invalid Version" brokenRegistry))
           H1 H2).
Defined.

Example latest_of_versioned :
  latestVersionOf nat lengthVersion Nat.compare "Invalid Version"
    versionedRegistry = Returned 14%nat.
Proof. reflexivity. Qed.

(** ** More on the publish sequencer *)

Section RetryLog.
Context {S E C : Type}.
Variable fn : RetryArgs -> S -> Settled E * S.
Variable opts : RetryOpts.
Variable log : S -> list C.

Lemma callFrom_appends (c : C) :
  (∀ args s, log (fn args s).2 = log s ++ [c]) →
  ∀ k a s, log (callFrom fn opts k a s).2
           = log s ++ replicate (Datatypes.S k) c.
Proof.
  intros Hfn. induction k as [|k IH]; intros a s; simpl.
  - by rewrite Hfn.
  - by rewrite IH, Hfn, <- app_assoc.
Qed.

Lemma callFrom_keeps :
  (∀ args s, log (fn args s).2 = log s) →
  ∀ k a s, log (callFrom fn opts k a s).2 = log s.
Proof.
  intros Hfn. induction k as [|k IH]; intros a s; simpl.
  - by rewrite Hfn.
  - by rewrite IH, Hfn.
Qed.

Lemma retry_appends (c : C) (s : S) :
  (∀ args s, log (fn args s).2 = log s ++ [c]) →
  ∃ k, (1 ≤ k ≤ attemptBudget opts)%nat ∧
       log (final (retry fn opts s)) = log s ++ replicate k c.
Proof.
  intros Hfn. destruct (retry_shape fn opts s) as [m Hm].
  pose proof (shape_last _ _ _ _ _ _ Hm) as Hlast.
  pose proof (shape_continued _ _ _ _ _ _ Hm) as Hcont.
  exists (Datatypes.S m). split.
  - unfold attemptBudget.
    destruct (decide (m = 0%nat)) as [->|Hm0]; [lia|].
    specialize (Hcont Hm0). lia.
  - replace (final (retry fn opts s)) with (callFrom fn opts m 0 s).2
      by (by rewrite <- Hlast).
    by apply callFrom_appends.
Qed.

Lemma retry_keeps (s : S) :
  (∀ args s, log (fn args s).2 = log s) →
  log (final (retry fn opts s)) = log s.
Proof.
  intros Hfn. destruct (retry_shape fn opts s) as [m Hm].
  pose proof (shape_last _ _ _ _ _ _ Hm) as Hlast.
  replace (final (retry fn opts s)) with (callFrom fn opts m 0 s).2
    by (by rewrite <- Hlast).
  by apply callFrom_keeps.
Qed.

End RetryLog.

Section PublishLog.
Context {World Err : Type}.
Variable exec : Command -> World -> ExecResult Err * World.
Variable fetchHead : string -> World -> (Err + Z) * World.
Variable prereleaseTag : string -> string.
Variable fileSystem : World -> FileSystem.
Variable withFileSystem : FileSystem -> World -> World.

#[local] Abbreviation LStep := (@Step World Err).
#[local] Abbreviation cycle :=
  (publishPackage exec fetchHead prereleaseTag fileSystem withFileSystem).
#[local] Abbreviation loop :=
  (publishLoop exec fetchHead prereleaseTag fileSystem withFileSystem).
#[local] Abbreviation running := (execStep exec).
#[local] Abbreviation publishCommand := (yarnPublish prereleaseTag).

Lemma logs_execStep (c : Command) : logs (running c) [c].
Proof.
  intros st. exists [c]. split; [apply ran_execStep|]. by split.
Qed.

Lemma logs_ignoringFailure (c : Command) :
  logs (ignoringFailure (running c)) [c].
Proof.
  intros st. exists [c]. split; [apply ran_execStep|]. by split.
Qed.

Lemma logs_copyStep :
  logs (copyStep (Err:=Err) fileSystem withFileSystem) [].
Proof.
  intros st. exists []. rewrite app_nil_r. split; [|by split].
  unfold copyStep. by destruct (copyRecursiveSync _ _ _).
Qed.

Lemma logs_sequence (steps : list LStep) (css : list (list Command)) :
  Forall2 logs steps css → logs (sequence steps) (concat css).
Proof.
  induction 1 as [|a cs steps css Ha _ IH]; intros st.
  - exists []. rewrite app_nil_r. by split.
  - rewrite sequence_cons. destruct (Ha st) as (cs' & Hran & Hpre & Hres).
    destruct (a st) as [[|e] st1]; simpl in *.
    + rewrite (Hres eq_refl) in Hran.
      destruct (IH st1) as (cs'' & Hran' & Hpre' & Hres').
      exists (cs ++ cs''). split; [by rewrite Hran', Hran, <- app_assoc|].
      split; [by apply prefix_app|].
      intros Hok. by rewrite (Hres' Hok).
    + exists cs'. split; [done|]. split; [|done].
      by apply prefix_app_r.
Qed.

Lemma logs_after_available (packageDetails : PackageDetails) :
  logs (sequence
          (transplant exec fileSystem withFileSystem packageDetails
           ++ (running <$> downstream packageDetails)
           ++ ((λ c, ignoringFailure (running c))
                 <$> cleanup packageDetails)))
    (script packageDetails).
Proof.
  change (script packageDetails)
    with (concat ([[removeAssets]; [removePackage];
                   [command "curl" ["-O"; tarballUrl packageDetails]];
                   [command "git"
                      ["clone";
                       "https://github.com/superwall-me/tldraw-assets.git"]];
                   [command "tar"
                      ["-xzf"; tarballName packageDetails; "-C"; "./"]];
                   []]
                  ++ ((λ c, [c]) <$> downstream packageDetails)
                  ++ ((λ c, [c]) <$> cleanup packageDetails))).
  apply logs_sequence. repeat apply Forall2_app.
  - repeat constructor;
      first [apply logs_ignoringFailure|apply logs_execStep|apply logs_copyStep].
  - apply Forall2_fmap, Forall_Forall2_diag, Forall_forall.
    intros c _. apply logs_execStep.
  - apply Forall2_fmap, Forall_Forall2_diag, Forall_forall.
    intros c _. apply logs_ignoringFailure.
Qed.

Lemma ran_publishOperation (packageDetails : PackageDetails)
  (args : RetryArgs) (st : RunState World) :
  ran (publishOperation exec prereleaseTag packageDetails args st).2
  = ran st ++ [publishCommand packageDetails].
Proof.
  unfold publishOperation.
  destruct (exec _ (world st)) as [r w].
  destruct (failure r); [|done].
  by destruct (includes _ _).
Qed.

Lemma ran_availabilityOperation (packageDetails : PackageDetails)
  (args : RetryArgs) (st : RunState World) :
  ran (availabilityOperation (Err:=Err) fetchHead packageDetails args st).2
  = ran st.
Proof.
  unfold availabilityOperation.
  destruct (fetchHead _ (world st)) as [[e|status] w]; [done|].
  by destruct (status >=? 400).
Qed.

Lemma publishPackage_log (packageDetails : PackageDetails)
  (st st' : RunState World) (outcome : Settled (Failure Err)) :
  cycle packageDetails st = (outcome, st') →
  ∃ k cmds,
    (1 ≤ k ≤ 5)%nat ∧ cmds `prefix_of` script packageDetails ∧
    ran st' = ran st ++ replicate k (publishCommand packageDetails) ++ cmds ∧
    (outcome = Resolved → cmds = script packageDetails).
Proof.
  unfold publishPackage. cbn [app]. rewrite sequence_cons.
  unfold retryStep. cbv beta zeta.
  destruct (retry_appends (publishOperation exec prereleaseTag packageDetails)
              publishOpts ran (publishCommand packageDetails) st)
    as (k & Hk & Hran1); [intros; apply ran_publishOperation|].
  change (attemptBudget publishOpts) with 5%nat in Hk.
  set (run1 := retry (publishOperation exec prereleaseTag packageDetails)
                 publishOpts st) in *.
  destruct (settled run1) as [|e].
  2:{ intros [= <- <-]. exists k, []. rewrite app_nil_r. split; [done|].
      split; [apply prefix_nil|]. by split. }
  rewrite sequence_cons. cbv beta zeta.
  pose proof (retry_keeps
                (availabilityOperation (Err:=Err) fetchHead packageDetails)
                availabilityOpts ran (final run1)
                ltac:(intros; apply ran_availabilityOperation)) as Hran2.
  set (run2 := retry (availabilityOperation (Err:=Err) fetchHead
                        packageDetails) availabilityOpts (final run1)) in *.
  destruct (settled run2) as [|e].
  2:{ intros [= <- <-]. exists k, []. rewrite app_nil_r. split; [done|].
      split; [apply prefix_nil|]. split; [|done].
      by rewrite Hran2. }
  intros Hrest.
  destruct (logs_after_available packageDetails (final run2))
    as (cmds & Hran3 & Hpre & Hres).
  rewrite Hrest in Hran3, Hres. simpl in Hran3, Hres.
  exists k, cmds. split; [done|]. split; [done|]. split; [|done].
  by rewrite Hran3, Hran2, Hran1, <- app_assoc.
Qed.

(** X17.  Whatever [exec] and [fetch] do, the cycle of a package runs
    [yarn npm publish] between one and five times and then a prefix of one
    fixed script: the two removals, [curl], [git clone], [tar], the four
    [git] commands in the clone, and the three removals of the cleanup.
    It runs no other command and none out of order; when the cycle
    resolves the whole script was run. *)
Theorem cycle_follows_the_script (packageDetails : PackageDetails)
  (st : RunState World) :
  ∃ k cmds,
    (1 ≤ k ≤ 5)%nat ∧ cmds `prefix_of` script packageDetails ∧
    ran (cycle packageDetails st).2
    = ran st ++ replicate k (publishCommand packageDetails) ++ cmds ∧
    ((cycle packageDetails st).1 = Resolved → cmds = script packageDetails).
Proof.
  destruct (cycle packageDetails st) as [outcome st'] eqn:Hrun.
  destruct (publishPackage_log packageDetails st st' outcome Hrun)
    as (k & cmds & Hk & Hpre & Hran & Hres).
  exists k, cmds. simpl. split; [exact Hk|]. split; [exact Hpre|].
  split; [exact Hran|exact Hres].
Qed.

(** X18.  The loop publishes in the order it is given and stops at the
    first cycle that rejects.  When it resolves, the commands run are
    those of a whole cycle for each package, one package after the other;
    when it rejects, the packages before the failing one were published,
    the error and the final state are those of the failing cycle, and no
    command is run for a later package. *)
Theorem loop_publishes_in_order (publishOrder : list PackageDetails)
  (st : RunState World) :
  (∀ st', loop publishOrder st = (Resolved, st') →
          ∃ ks, length ks = length publishOrder ∧
                Forall (λ k, (1 ≤ k ≤ 5)%nat) ks ∧
                ran st' = ran st ++ concat (zip_with (cycleLog prereleaseTag)
                                              ks publishOrder)) ∧
  (∀ e st', loop publishOrder st = (Rejected e, st') →
            ∃ published packageDetails later st1,
              publishOrder = published ++ packageDetails :: later ∧
              loop published st = (Resolved, st1) ∧
              cycle packageDetails st1 = (Rejected e, st')).
Proof.
  unfold publishLoop. revert st.
  induction publishOrder as [|p rest IH]; intros st.
  - split.
    + intros st' [= <-]. exists []. by rewrite app_nil_r.
    + intros e st' [=].
  - rewrite fmap_cons, sequence_cons.
    destruct (cycle p st) as [[|e] st1] eqn:Hp.
    2:{ split; [done|]. intros e' st' [= <- <-]. by exists [], p, rest, st. }
    destruct (publishPackage_log p st st1 Resolved Hp)
      as (k & cmds & Hk & _ & Hran & Hres).
    destruct (IH st1) as [IH1 IH2]. split.
    + intros st' (ks & Hlen & Hks & Hran')%IH1.
      exists (k :: ks). split; [simpl; by rewrite Hlen|].
      split; [by constructor|].
      rewrite Hran', Hran, (Hres eq_refl). simpl. unfold cycleLog at 2.
      by rewrite <- !app_assoc.
    + intros e st' (published & q & later & st2 & -> & Hdone & Hq)%IH2.
      exists (p :: published), q, later, st2. split; [done|].
      split; [|done]. by rewrite fmap_cons, sequence_cons, Hp.
Qed.

End PublishLog.

Lemma loop_publishes_in_order_witness :
  let loop := publishLoop (simExec slowRegistry) (simFetch slowRegistry)
                simTag simFs simWithFs in
  let st' := (loop [simPackage; simEditor] simStart).2 in
  loop [simPackage; simEditor] simStart = (Resolved, st') ∧
  ∃ ks, length ks = 2%nat ∧
        Forall (λ k, (1 ≤ k ≤ 5)%nat) ks ∧
        ran st' = ran simStart
                  ++ concat (zip_with (cycleLog simTag) ks
                               [simPackage; simEditor]).
Proof.
  intros loop st'.
  assert (loop [simPackage; simEditor] simStart = (Resolved, st')) as H1
    by (vm_compute; reflexivity).
  split; [exact H1|].
  exact (proj1 (loop_publishes_in_order (simExec slowRegistry)
                  (simFetch slowRegistry) simTag simFs simWithFs
                  [simPackage; simEditor] simStart) st' H1).
Defined.

Example loop_commands_in_order :
  ran (publishLoop (simExec slowRegistry) (simFetch slowRegistry) simTag
         simFs simWithFs [simPackage; simEditor] simStart).2
  = cycleLog simTag 1 simPackage ++ cycleLog simTag 1 simEditor.
Proof. vm_compute. reflexivity. Qed.

(** *** The unscoped name *)

Lemma prefix_app_long (pat x y : string) :
  (String.length pat ≤ String.length x)%nat →
  String.prefix pat (x +:+ y) = String.prefix pat x.
Proof.
  revert x. induction pat as [|c pat IH]; intros x Hlen.
  - destruct x; [by destruct y|done].
  - destruct x as [|c' x]; simpl in *; [lia|].
    destruct (Ascii.ascii_dec c c'); [|done]. apply IH. lia.
Qed.

Lemma length_app_string (a b : string) :
  String.length (a +:+ b) = (String.length a + String.length b)%nat.
Proof.
  induction a as [|c a IH]; [done|].
  change (String c a +:+ b) with (String c (a +:+ b)). simpl.
  by rewrite IH.
Qed.

Lemma replaceFirst_absent (pat rep s : string) :
  includes pat s = false → replaceFirst pat rep s = s.
Proof.
  induction s as [|c s IH]; simpl.
  - intros [H _]%orb_false_elim. by rewrite H.
  - intros [H Hs]%orb_false_elim. rewrite H. by rewrite IH.
Qed.

Lemma app_string_assoc (a b c : string) :
  (a +:+ b) +:+ c = a +:+ b +:+ c.
Proof.
  induction a as [|x a IH]; [done|].
  change (String x a +:+ ?s) with (String x (a +:+ s)).
  change (String x (a +:+ b) +:+ c) with (String x ((a +:+ b) +:+ c)).
  by rewrite IH.
Qed.

Lemma replaceFirst_scope (rep a b : string) :
  includes "@tldraw/" (a +:+ "@tldraw") = false →
  replaceFirst "@tldraw/" rep (a +:+ "@tldraw/" +:+ b) = a +:+ rep +:+ b.
Proof.
  induction a as [|c a IH]; [intros _; by destruct b|].
  change (String c a +:+ ?s) with (String c (a +:+ s)).
  cbn [includes replaceFirst]. intros [H Ha]%orb_false_elim.
  assert (String.prefix "@tldraw/" (String c (a +:+ "@tldraw/" +:+ b))
          = false) as ->.
  { etrans; [|exact H].
    change (String c (a +:+ "@tldraw")) with (String c a +:+ "@tldraw").
    rewrite <- (prefix_app_long "@tldraw/" (String c a +:+ "@tldraw")
                  ("/" +:+ b)).
    - by rewrite app_string_assoc.
    - rewrite length_app_string. simpl. lia. }
  by rewrite IH.
Qed.

(** X19.  The unscoped name of a package is its name without the first
    [@tldraw/] in it, wherever that stands; later occurrences are kept,
    and a name without [@tldraw/] is its own unscoped name, so that the
    tarball is then looked for under the [@tldraw] scope all the same. *)
Theorem unscoped_name_drops_first_scope (packageDetails : PackageDetails) :
  (∀ a b, name packageDetails = a +:+ "@tldraw/" +:+ b →
          includes "@tldraw/" (a +:+ "@tldraw") = false →
          unscopedName packageDetails = a +:+ b) ∧
  (includes "@tldraw/" (name packageDetails) = false →
   unscopedName packageDetails = name packageDetails ∧
   tarballUrl packageDetails
   = "http://127.0.0.1:4873/@tldraw/" +:+ name packageDetails +:+ "/-/"
     +:+ name packageDetails +:+ "-" +:+ version packageDetails +:+ ".tgz").
Proof.
  unfold tarballUrl, unscopedName. split.
  - intros a b -> Ha. by rewrite replaceFirst_scope.
  - intros Hname. by rewrite replaceFirst_absent.
Qed.

Lemma unscoped_name_drops_first_scope_witness :
  name simEditor = "" +:+ "@tldraw/" +:+ "editor" ∧
  includes "@tldraw/" ("" +:+ "@tldraw") = false ∧
  unscopedName simEditor = "" +:+ "editor".
Proof.
  assert (name simEditor = "" +:+ "@tldraw/" +:+ "editor") as H1
    by reflexivity.
  assert (includes "@tldraw/" ("" +:+ "@tldraw") = false) as H2
    by reflexivity.
  split; [exact H1|]. split; [exact H2|].
  exact (proj1 (unscoped_name_drops_first_scope simEditor) "" "editor" H1 H2).
Defined.
